(** * Scoped settings resolver of the pad client: [src/static/js/settings.js]

    A shallow embedding of the settings module (registry, validator, loader,
    resolver, mutator, exporter) and the properties of its specification. *)

From Stdlib Require Import Ascii.
From stdpp Require Import gmap strings list fin_maps pretty.

Open Scope string_scope.

(** ** JavaScript values held by the module *)

(** The values that flow through the module: default values, query-string
    parameters, widget values, callbacks.  A function is named by a number;
    what calling it does is given by the host (see [host_call] below). *)
Inductive value :=
  | VUndefined
  | VNull
  | VBool (b : bool)
  | VStr (s : string)
  | VNum (n : Z)
  | VFun (f : nat).

#[global] Instance value_eq_dec : EqDecision value.
Proof. solve_decision. Defined.

(** ToBoolean. *)
Definition truthy (v : value) : bool :=
  match v with
  | VUndefined | VNull => false
  | VBool b => b
  | VStr s => negb (String.eqb s "")
  | VNum n => negb (Z.eqb n 0)
  | VFun _ => true
  end.

(** [typeof v != "undefined"]. *)
Definition is_defined (v : value) : bool :=
  match v with VUndefined => false | _ => true end.

(** [typeof v == "function"]. *)
Definition is_function (v : value) : bool :=
  match v with VFun _ => true | _ => false end.

(** [v == lit] for the word literals the module compares with ("true",
    "false", "local", "global", "get"): none of them reads as a number, so
    a number or a boolean never equals them, nor do undefined and null; the
    text of a function is not one of these words either. *)
Definition loose_eq_str (v : value) (lit : string) : bool :=
  match v with
  | VStr s => String.eqb s lit
  | _ => false
  end.

(** A string-valued property that an object literal may leave out
    ([None] is the property read as undefined). *)
Abbreviation strprop := (option string).

(** [!p] on such a property: undefined and the empty string are falsy. *)
Definition prop_falsy (p : strprop) : bool :=
  match p with
  | None => true
  | Some s => String.eqb s ""
  end.

(** [!p || p.length == 0]. *)
Definition prop_missing_or_empty (p : strprop) : bool :=
  prop_falsy p || match p with Some s => Nat.eqb (String.length s) 0 | None => false end.

(** The property used as a key or inside a string concatenation. *)
Definition prop_str (p : strprop) : string := default "undefined" p.

(** ** Data model *)

(** Scopes: the source comment says the last member is the most important. *)
Definition scopes : list string := ["local"; "global"; "get"].

(** One entry of a setting's [controls] array. *)
Record control := Control {
  c_scope : strprop;
  c_type : strprop;
  c_id : strprop;
  c_name : strprop;
  c_callback : value
}.

(** One entry of the [settings] array; [val] is absent until the loader
    assigns [setting.val = []]. *)
Record setting := Setting {
  name : strprop;
  defaultValue : value;
  callback : value;
  controls : option (list control);
  val : option (gmap string value)
}.

(** [setting.val[scope]] once [val] exists: a key that was never written
    reads as undefined. *)
Definition val_read (m : gmap string value) (scope : string) : value :=
  default VUndefined (m !! scope).

(** The object built by [exportSettings]: setting name, then scope. *)
Abbreviation exported := (gmap string (gmap string value)).

(** ** The world outside the module *)

(** A widget found by [$("#" + id)]: its tag name in lower case, its [type]
    attribute and the value last pushed into it. *)
Record element := Element {
  tagName : string;
  typeAttr : option string;
  held : value
}.

Record world := World {
  console : list string;
  dom : gmap string element;
  cookies : gmap string exported
}.

Inductive exn :=
  | Thrown (msg : string)
  | TypeError (what : string).

#[global] Instance exn_eq_dec : EqDecision exn.
Proof. solve_decision. Defined.

(** Module state: the registry with its values, the ignored scopes, the
    [loaded] flag, and the world the module acts on. *)
Record state := State {
  settings : list setting;
  ignoredScopes : list string;
  loaded : bool;
  outside : world
}.

(** ** Computations that may throw *)

Inductive result (A : Type) :=
  | Ret (a : A) (st : state)
  | Throw (e : exn) (st : state).
Arguments Ret {A} a st.
Arguments Throw {A} e st.

Definition M (A : Type) : Type := state → result A.

Definition ret {A} (a : A) : M A := λ st, Ret a st.
Definition throw {A} (e : exn) : M A := λ st, Throw e st.
Definition bind {A B} (m : M A) (k : A → M B) : M B :=
  λ st, match m st with
        | Ret a st' => k a st'
        | Throw e st' => Throw e st'
        end.
Definition get_state : M state := λ st, Ret st st.

Declare Scope js_scope.
Delimit Scope js_scope with js.
Notation "'let*' x := m 'in' k" := (bind m (λ x, k))
  (at level 10, x name, m at level 100, k at level 200) : js_scope.
Notation "m >> k" := (bind m (λ _, k))
  (at level 100, k at level 200, right associativity) : js_scope.
Open Scope js_scope.

(** A computation that reads the state without changing it. *)
Definition lift {A} (f : state → exn + A) : M A :=
  λ st, match f st with
        | inl e => Throw e st
        | inr a => Ret a st
        end.

(** [for (var i = lo; i < lo + n; i++) body(i)]. *)
Fixpoint for_range (lo n : nat) (body : nat → M unit) : M unit :=
  match n with
  | O => ret tt
  | S n' => body lo >> for_range (S lo) n' body
  end.

(** [for (var j = 0; j < xs.length; j++) body(j, xs[j])] over an array that
    the body does not change; [j0] is the index of the head. *)
Fixpoint for_each {A} (j0 : nat) (xs : list A) (body : nat → A → M unit) : M unit :=
  match xs with
  | [] => ret tt
  | x :: rest => body j0 x >> for_each (S j0) rest body
  end.

(** ** [errors != 0]: an array compared with a number

    The array is turned into the string of its elements joined by commas and
    that string into a number. *)

Definition is_ws (c : Ascii.ascii) : bool :=
  let n := Ascii.nat_of_ascii c in
  (n =? 32)%nat || ((9 <=? n)%nat && (n <=? 13)%nat).

Fixpoint skip_ws (s : string) : string :=
  match s with
  | String c r => if is_ws c then skip_ws r else s
  | EmptyString => EmptyString
  end.

Definition digit_of (base : nat) (c : Ascii.ascii) : option Z :=
  let n := Ascii.nat_of_ascii c in
  let d :=
    if (48 <=? n)%nat && (n <=? 57)%nat then Some (n - 48)%nat
    else if (97 <=? n)%nat && (n <=? 102)%nat then Some (n - 87)%nat
    else if (65 <=? n)%nat && (n <=? 70)%nat then Some (n - 55)%nat
    else None in
  match d with
  | Some k => if (k <? base)%nat then Some (Z.of_nat k) else None
  | None => None
  end.

(** The longest prefix of digits in [base], as the number it writes and the
    count of digits, and the rest of the string. *)
Fixpoint take_digits (base : nat) (s : string) (acc : Z) (cnt : nat) : Z * nat * string :=
  match s with
  | String c r =>
      match digit_of base c with
      | Some d => take_digits base r (acc * Z.of_nat base + d)%Z (S cnt)
      | None => (acc, cnt, s)
      end
  | EmptyString => (acc, cnt, s)
  end.

Definition strip_sign (s : string) : bool * string :=
  match s with
  | String c r =>
      if Ascii.eqb c "-"%char then (true, r)
      else if Ascii.eqb c "+"%char then (false, r)
      else (false, s)
  | EmptyString => (false, s)
  end.

(** A decimal literal [m * 10^e] rounds to zero when it is at most half of
    the least positive double, 2^-1074. *)
Definition rounds_to_zero (m e : Z) : bool :=
  (m =? 0)%Z || ((e <? 0)%Z && (m * 2 ^ 1075 <=? 10 ^ (- e))%Z).

(** The numeric literal that is left once white space is trimmed: [None]
    when it is not a number (NaN), otherwise whether its value is zero. *)
Definition literal_is_zero (s : string) : option bool :=
  let nondecimal (base : nat) (r : string) :=
    match take_digits base r 0 0 with
    | (m, S _, EmptyString) => Some (m =? 0)%Z
    | _ => None
    end in
  match s with
  | String "0"%char (String "x"%char r) | String "0"%char (String "X"%char r) => nondecimal 16%nat r
  | String "0"%char (String "o"%char r) | String "0"%char (String "O"%char r) => nondecimal 8%nat r
  | String "0"%char (String "b"%char r) | String "0"%char (String "B"%char r) => nondecimal 2%nat r
  | _ =>
      let '(_, s1) := strip_sign s in
      if String.eqb s1 "Infinity" then Some false else
      let '(ip, ni, r1) := take_digits 10 s1 0 0 in
      let '(m, nf, r2) :=
        match r1 with
        | String "."%char r => take_digits 10 r ip 0
        | _ => (ip, O, r1)
        end in
      if (ni + nf =? 0)%nat then None else
      let ex :=
        match r2 with
        | String "e"%char r | String "E"%char r =>
            let '(neg, r') := strip_sign r in
            match take_digits 10 r' 0 0 with
            | (e, S _, EmptyString) => Some (if neg then (- e)%Z else e)
            | _ => None
            end
        | EmptyString => Some 0%Z
        | _ => None
        end in
      match ex with
      | Some e => Some (rounds_to_zero m (e - Z.of_nat nf))
      | None => None
      end
  end.

(** ToNumber of a string is zero: the empty (or blank) string, or a literal
    of value zero.  A string whose first character after white space cannot
    start a literal is NaN. *)
Definition string_is_zero (s : string) : bool :=
  match skip_ws s with
  | EmptyString => true
  | String c r =>
      let n := Ascii.nat_of_ascii c in
      if (48 <=? n)%nat && (n <=? 57)%nat || (n =? 43)%nat || (n =? 45)%nat
         || (n =? 46)%nat || (n =? 73)%nat
      then default false (literal_is_zero (String.rev (skip_ws (String.rev (String c r)))))
      else false
  end.

(** [Array.prototype.join] with the default separator. *)
Fixpoint join_comma (xs : list string) : string :=
  match xs with
  | [] => ""
  | [x] => x
  | x :: rest => x ++ "," ++ join_comma rest
  end.

(** [errors != 0]. *)
Definition array_ne_zero (errors : list string) : bool :=
  negb (string_is_zero (join_comma errors)).

(** ** The module's functions *)

Section SettingsModule.

(** [urlVars]: the query-string mapping computed once by [getUrlVars];
    [urlVars k] is what [urlVars[k]] reads. *)
Variable urlVars : string → value.

(** Calling function [f] with a setting and one more argument: it acts on
    the world outside the module (DOM updates, feature toggles) and returns
    a value or throws.  The functions of a registry are collaborators of the
    module: they do not call back into it. *)
Variable host_call : nat → setting → value → world → (exn + value) * world.

Definition set_outside (w : world) : M unit :=
  λ st, Ret tt (State (settings st) (ignoredScopes st) (loaded st) w).

Definition call_function (f : nat) (s : setting) (arg : value) : M value :=
  λ st, match host_call f s arg (outside st) with
        | (inr v, w) => Ret v (State (settings st) (ignoredScopes st) (loaded st) w)
        | (inl e, w) => Throw e (State (settings st) (ignoredScopes st) (loaded st) w)
        end.

(** [callee(setting, arg)] for a property that may hold anything. *)
Definition call_value (callee : value) (s : setting) (arg : value) : M value :=
  match callee with
  | VFun f => call_function f s arg
  | _ => throw (TypeError "not a function")
  end.

(** *** getSetting *)

(** The first entry whose name equals [nm], with its index: the caller gets
    the entry itself and writes through it. *)
Definition getSetting (st : state) (nm : strprop) : option (nat * setting) :=
  list_find (λ s, name s = nm) (settings st).

(** *** getValue *)

(** The loop over [scopes], which returns from inside: [found] is what
    [getSetting] gave, and it is dereferenced only for a scope that is not
    ignored. *)
Fixpoint getValue_scan (ignored : list string) (found : option (nat * setting))
    (scs : list string) : exn + value :=
  match scs with
  | [] => inr VNull
  | scope :: rest =>
      if bool_decide (scope ∉ ignored) then
        match found with
        | None => inl (TypeError "setting is null")
        | Some (_, s) =>
            match val s with
            | None => inl (TypeError "setting.val is undefined")
            | Some m =>
                if is_defined (val_read m scope) then inr (val_read m scope)
                else getValue_scan ignored found rest
            end
        end
      else getValue_scan ignored found rest
  end.

Definition getValue (st : state) (nm : strprop) : exn + value :=
  getValue_scan (ignoredScopes st) (getSetting st nm) scopes.

(** *** exportSettings *)

(** The inner loop, over [scopes], filling [out[name]]. *)
Fixpoint export_scopes (m : gmap string value) (scope : value) (scs : list string)
    (inner : gmap string value) : gmap string value :=
  match scs with
  | [] => inner
  | sc :: rest =>
      let v := val_read m sc in
      export_scopes m scope rest
        (if truthy v && (loose_eq_str scope sc || negb (truthy scope))
         then <[sc := v]> inner else inner)
  end.

(** The outer loop, over [settings]: [out[name] = []], then the inner
    loop. *)
Fixpoint export_loop (ss : list setting) (scope : value) (out : exported) : exn + exported :=
  match ss with
  | [] => inr out
  | s :: rest =>
      match val s with
      | None => inl (TypeError "settings[i].val is undefined")
      | Some m => export_loop rest scope (<[prop_str (name s) := export_scopes m scope scopes ∅]> out)
      end
  end.

Definition exportSettings (st : state) (scope : value) : exn + exported :=
  export_loop (settings st) scope ∅.

(** *** saveToCookie *)

(** Modelled from the spec: [padcookie.saveCookie] of pad_cookie.js, which
    writes the payload to one named slot of the store. *)
Definition saveCookie (slot : string) (payload : exported) (w : world) : world :=
  World (console w) (dom w) (<[slot := payload]> (cookies w)).

Definition saveToCookie : M unit :=
  let* exported := lift (λ st, exportSettings st (VStr "local")) in
  let* st := get_state in
  set_outside (saveCookie "epl_prefs" exported (outside st)).

(** *** setControlSettingValue *)

(** Modelled from the spec: [padutils.setCheckbox] of pad_utils.js, the
    boolean-aware setter of a checkbox. *)
Definition setCheckbox (el : element) (v : value) : element :=
  Element (tagName el) (typeAttr el) (VBool (truthy v)).

(** The widget is looked up by its id; [control.prop("tagName")] of an
    empty selection is undefined, so a missing widget is a type error at
    [.toLowerCase()], before the test of [control.length]. *)
Definition setControlSettingValue (c : control) (nm : strprop) (v : value) : M unit :=
  let* st := get_state in
  let w := outside st in
  let id := prop_str (c_id c) in
  match dom w !! id with
  | None => throw (TypeError "control.prop(...) is undefined")
  | Some el =>
      if String.eqb (tagName el) "input" then
        if bool_decide (typeAttr el = Some "checkbox") then
          set_outside (World (console w) (<[id := setCheckbox el v]> (dom w)) (cookies w))
        else
          throw (Thrown ("settings error: only checkboxes are supported (setting: "
                         ++ prop_str nm ++ ")"))
      else if String.eqb (tagName el) "select" then
        set_outside (World (console w)
                       (<[id := Element (tagName el) (typeAttr el) v]> (dom w)) (cookies w))
      else
        throw (Thrown ("settings error: unsuppored control #" ++ id
                       ++ " (" ++ tagName el ++ ")"))
  end.

(** *** setValue *)

(** [settings[i].val = m]. *)
Definition with_val (s : setting) (m : gmap string value) : setting :=
  Setting (name s) (defaultValue s) (callback s) (controls s) (Some m).

Definition store_val (i : nat) (m : gmap string value) : M unit :=
  λ st, match settings st !! i with
        | Some s => Ret tt (State (<[i := with_val s m]> (settings st))
                              (ignoredScopes st) (loaded st) (outside st))
        | None => Throw (TypeError "settings[i] is undefined") st
        end.

(** [settings[i].val[scope] = v]. *)
Definition write_val (i : nat) (scope : string) (v : value) : M unit :=
  λ st, match settings st !! i with
        | Some s =>
            match val s with
            | Some m => store_val i (<[scope := v]> m) st
            | None => Throw (TypeError "setting.val is undefined") st
            end
        | None => Throw (TypeError "settings[i] is undefined") st
        end.

(** [settings[i]], read again from the current state. *)
Definition read_setting (i : nat) : M setting :=
  λ st, match settings st !! i with
        | Some s => Ret s st
        | None => Throw (TypeError "settings[i] is undefined") st
        end.

(** [if(setting.callback) setting.callback(setting, exports.getValue(name))]:
    the argument is evaluated before the call. *)
Definition notify (i : nat) (nm : strprop) : M unit :=
  let* s := read_setting i in
  if truthy (callback s) then
    let* v := lift (λ st, getValue st nm) in
    call_value (callback s) s v >> ret tt
  else ret tt.

(** The scope test comes first; then the write, the widgets bound to the
    scope, the callback, and the cookie once loaded. *)
Definition setValue (nm : strprop) (scope : string) (v : value) : M unit :=
  if bool_decide (scope ∉ scopes) then throw (Thrown "Unknown scope") else
  let* st := get_state in
  match getSetting st nm with
  | None => throw (TypeError "setting is null")
  | Some (i, s) =>
      write_val i scope v >>
      match controls s with
      | None => throw (TypeError "setting.controls is undefined")
      | Some cs =>
          for_each 0 cs (λ _ c,
            if bool_decide (c_scope c = Some scope) && bool_decide (c_type c = Some "control")
            then setControlSettingValue c (name s) v
            else ret tt)
      end >>
      notify i nm >>
      let* st' := get_state in
      if loaded st' then saveToCookie else ret tt
  end.

(** *** setIgnoreScope *)

(** [ignoredScopes.splice(ignoredScopes.indexOf(scope), 1)]: the first
    occurrence goes. *)
Fixpoint remove_first (scope : string) (l : list string) : list string :=
  match l with
  | [] => []
  | x :: rest => if bool_decide (x = scope) then rest else x :: remove_first scope rest
  end.

(** [ignore] is tested for truthiness. *)
Definition setIgnoreScope (scope : string) (ignore : value) : M unit :=
  if bool_decide (scope ∉ scopes) then
    throw (Thrown ("Scope " ++ scope ++ " does not exist."))
  else
    λ st,
      let present := bool_decide (scope ∈ ignoredScopes st) in
      if truthy ignore && negb present then
        Ret tt (State (settings st) (ignoredScopes st ++ [scope]) (loaded st) (outside st))
      else if negb (truthy ignore) && present then
        Ret tt (State (settings st) (remove_first scope (ignoredScopes st))
                  (loaded st) (outside st))
      else Ret tt st.

(** *** checkSettingsArray *)

(** [logSettingsError(errors, msg)] pushes the prefixed message on [errors]
    and prints the same line; [checkSettingsArray] below hands the pushed
    lines to the console in the order they were pushed. *)
Definition logSettingsError (errors : list string) (msg : string) : list string :=
  errors ++ ["settings error: " ++ msg].

Definition validTypes : list string := ["control"; "get"; "custom"].

(** [l.indexOf(p) == -1]. *)
Definition index_missing (l : list string) (p : strprop) : bool :=
  match p with
  | Some s => bool_decide (s ∉ l)
  | None => true
  end.

(** The body of the loop over [setting.controls]. *)
Definition check_control (sname : strprop) (j : nat) (c : control)
    (errors : list string) : list string :=
  let type := c_type c in
  let errors :=
    if prop_falsy type
    then logSettingsError errors
           ("no type for control " ++ pretty j ++ " in setting " ++ prop_str sname)
    else errors in
  let errors :=
    if index_missing validTypes type
    then logSettingsError errors
           ("invalid type " ++ prop_str type ++ " for setting " ++ pretty j
            ++ " in setting " ++ prop_str sname)
    else errors in
  let scope := c_scope c in
  let errors :=
    if prop_falsy scope
    then logSettingsError errors
           ("no scope for control " ++ pretty j ++ " in setting " ++ prop_str sname)
    else errors in
  let errors :=
    if index_missing scopes scope
    then logSettingsError errors
           ("invalid scope " ++ prop_str type ++ " for control " ++ pretty j
            ++ " in setting " ++ prop_str sname)
    else errors in
  if bool_decide (type = Some "control") then
    if prop_missing_or_empty (c_id c)
    then logSettingsError errors
           ("ID of control for control " ++ pretty j ++ " in setting "
            ++ prop_str sname ++ " not given")
    else errors
  else if bool_decide (type = Some "get") then
    if prop_missing_or_empty (c_name c)
    then logSettingsError errors
           ("Name of get-parameter for control " ++ pretty j ++ " in setting "
            ++ prop_str sname ++ " not given")
    else errors
  else if bool_decide (type = Some "custom") then
    if negb (truthy (c_callback c))
    then logSettingsError errors
           ("Callback for control " ++ pretty j ++ " in setting "
            ++ prop_str sname ++ " not given")
    else if negb (is_function (c_callback c))
    then logSettingsError errors
           ("Callback for control " ++ pretty j ++ " in setting "
            ++ prop_str sname ++ " is not a function")
    else errors
  else errors.

Fixpoint check_controls (sname : strprop) (j : nat) (cs : list control)
    (errors : list string) : list string :=
  match cs with
  | [] => errors
  | c :: rest => check_controls sname (S j) rest (check_control sname j c errors)
  end.

(** The body of the loop over [settings]; a setting without [controls]
    is reported and its controls are skipped ([continue]). *)
Definition check_setting (i : nat) (s : setting) (errors : list string) : list string :=
  let nameOkay := negb (prop_missing_or_empty (name s)) in
  let errors :=
    if nameOkay then errors
    else logSettingsError errors ("name of setting " ++ pretty i ++ " not given") in
  match controls s with
  | None =>
      let nm := if nameOkay then prop_str (name s) else pretty i in
      logSettingsError errors ("controls of setting " ++ nm ++ " not given")
  | Some cs => check_controls (name s) 0 cs errors
  end.

Fixpoint check_settings (i : nat) (ss : list setting) (errors : list string) : list string :=
  match ss with
  | [] => errors
  | s :: rest => check_settings (S i) rest (check_setting i s errors)
  end.

Fixpoint check_ignored (ign : list string) (errors : list string) : list string :=
  match ign with
  | [] => errors
  | sc :: rest =>
      check_ignored rest
        (if bool_decide (sc ∉ scopes)
         then logSettingsError errors ("ignored scope " ++ sc ++ " does not exist.")
         else errors)
  end.

(** The [errors] array at the end of the two loops. *)
Definition collected_errors (st : state) : list string :=
  check_settings 0 (settings st) (check_ignored (ignoredScopes st) []).

(** The lines are printed, and the function throws when [errors != 0]. *)
Definition checkSettingsArray : M unit :=
  λ st,
    let errors := collected_errors st in
    let w := outside st in
    let st' := State (settings st) (ignoredScopes st) (loaded st)
                 (World (console w ++ errors) (dom w) (cookies w)) in
    if array_ne_zero errors
    then Throw (Thrown "Errors occurred when checking the setting-definitions. Check the log.") st'
    else Ret tt st'.

(** *** loadSettings *)

(** The value a "get" control takes from the query string, after the two
    words are turned into booleans. *)
Definition coerce_param (paramValue : value) : value :=
  if loose_eq_str paramValue "true" then VBool true
  else if loose_eq_str paramValue "false" then VBool false
  else paramValue.

Definition scope_arg (scope : strprop) : value :=
  match scope with
  | Some s => VStr s
  | None => VUndefined
  end.

(** One turn of the loop over [setting.controls] in [loadSettings]. *)
Definition seed_control (i : nat) (c : control) : M unit :=
  let scope := c_scope c in
  if bool_decide (c_type c = Some "get") then
    let paramValue := coerce_param (urlVars (prop_str (c_name c))) in
    if truthy paramValue then write_val i (prop_str scope) paramValue else ret tt
  else if bool_decide (c_type c = Some "custom") then
    let* s := read_setting i in
    let* r := call_value (c_callback c) s (scope_arg scope) in
    write_val i (prop_str scope) r
  else ret tt.

(** One turn of the loop over [scopes] that commits the seeded values. *)
Definition commit_scope (i : nat) (scope : string) : M unit :=
  let* s := read_setting i in
  match val s with
  | None => throw (TypeError "setting.val is undefined")
  | Some m =>
      if is_defined (val_read m scope)
      then setValue (name s) scope (val_read m scope)
      else ret tt
  end.

(** One turn of the first loop over [settings]. *)
Definition load_setting (i : nat) : M unit :=
  let* s := read_setting i in
  store_val i {["local" := defaultValue s]} >>
  match controls s with
  | None => throw (TypeError "setting.controls is undefined")
  | Some cs => for_each 0 cs (λ _ c, seed_control i c)
  end >>
  for_each 0 scopes (λ _ scope, commit_scope i scope).

Definition set_loaded (b : bool) : M unit :=
  λ st, Ret tt (State (settings st) (ignoredScopes st) b (outside st)).

(** [settings.length] does not change, so it is read once. *)
Definition loadSettings : M unit :=
  checkSettingsArray >>
  let* st := get_state in
  let n := length (settings st) in
  for_range 0 n load_setting >>
  for_range 0 n (λ i, let* s := read_setting i in notify i (name s)) >>
  set_loaded true >>
  saveToCookie.

End SettingsModule.

(** ** The registry of the source *)

(** The one computed binding of the table, the function given for
    "showAuthorColors": noColors=true means showAuthorColors=false. *)
Definition noColors_callback (urlVars : string → value) : value :=
  if is_defined (urlVars "noColors")
  then VBool (loose_eq_str (urlVars "noColors") "false")
  else VUndefined.

(** Function 0 is that callback; the table names no other function. *)
Definition table_call (urlVars : string → value)
    (f : nat) (_ : setting) (_ : value) (w : world) : (exn + value) * world :=
  match f with
  | O => (inr (noColors_callback urlVars), w)
  | _ => (inr VUndefined, w)
  end.

Definition get_control (scope nm : string) : control :=
  Control (Some scope) (Some "get") None (Some nm) VUndefined.
Definition widget_control (scope id : string) : control :=
  Control (Some scope) (Some "control") (Some id) None VUndefined.
Definition custom_control (scope : string) (f : nat) : control :=
  Control (Some scope) (Some "custom") None None (VFun f).

Definition entry (nm : string) (dflt : value) (cs : list control) : setting :=
  Setting (Some nm) dflt VNull (Some cs) None.

Definition settings_table : list setting := [
  entry "name" VNull [get_control "get" "userName"];
  entry "userId" VNull [];
  entry "userColor" VNull [get_control "get" "userColor"];
  entry "language" (VStr "en") [get_control "get" "lang"];
  entry "rtl" (VBool false) [get_control "get" "rtl"];
  entry "ignoreGlobal" (VBool false)
    [get_control "get" "ignoreGlobal"; widget_control "local" "options-ignore-global"];
  entry "showAuthorColors" (VBool true)
    [widget_control "local" "options-colorscheck";
     widget_control "global" "options-colorscheck-global";
     custom_control "get" 0];
  entry "showLineNumbers" (VBool true)
    [get_control "get" "showLineNumbers";
     widget_control "local" "options-linenoscheck";
     widget_control "global" "options-linenoscheck-global"];
  entry "useMonospaceFont" (VBool false)
    [get_control "get" "useMonospaceFont";
     widget_control "local" "viewfontmenu";
     widget_control "global" "viewfontmenu-global"];
  entry "stickychat" (VBool false)
    [get_control "get" "alwaysShowChat"; widget_control "local" "options-stickychat"];
  entry "showControls" (VBool true) [get_control "get" "showControls"];
  entry "showChat" (VBool true) [get_control "get" "showChat"]
].

(** A page that has every widget the table names: check boxes, and the two
    font menus as select lists. *)
Definition checkbox : element := Element "input" (Some "checkbox") VUndefined.
Definition select_list : element := Element "select" None VUndefined.

Definition page_dom : gmap string element :=
  list_to_map [
    ("options-ignore-global", checkbox);
    ("options-colorscheck", checkbox);
    ("options-colorscheck-global", checkbox);
    ("options-linenoscheck", checkbox);
    ("options-linenoscheck-global", checkbox);
    ("viewfontmenu", select_list);
    ("viewfontmenu-global", select_list);
    ("options-stickychat", checkbox)
  ].

(** The module as it is when the script has run and nothing was called. *)
Definition initial_state (ss : list setting) (d : gmap string element) : state :=
  State ss [] false (World [] d ∅).

(** A query string "k1=v1&k2=v2" as the mapping [getUrlVars] builds from
    it, read at the names of parameters; a key given twice keeps its last
    value. *)
Definition query (kvs : list (string * string)) : string → value :=
  λ k, match (list_to_map (reverse kvs) : gmap string string) !! k with
       | Some v => VStr v
       | None => VUndefined
       end.

(** ** getUrlVars *)








(** * Vocabulary of the properties *)

(** The state a call leaves behind, whether it returned or threw. *)
Definition final {A} (r : result A) : state :=
  match r with
  | Ret _ st => st
  | Throw _ st => st
  end.

(** A decidable fact about concrete data, settled by evaluating its
    decision procedure. *)
Ltac by_evaluation := apply (bool_decide_unpack _); vm_compute; exact I.

(** ** Calls that leave the registry alone *)

(** The part of the state that belongs to the module. *)
Definition core (st : state) : list setting * list string * bool :=
  (settings st, ignoredScopes st, loaded st).

(** [m] changes nothing but the world outside, whether it returns or
    throws. *)
Definition outside_only {A} (m : M A) : Prop :=
  ∀ st, core (final (m st)) = core st.

(** What [setValue] does after the write: widgets, callback, cookie. *)
Definition after_write (host_call : nat → setting → value → world → (exn + value) * world)
    (i : nat) (s : setting) (nm : strprop) (scope : string) (v : value) : M unit :=
  match controls s with
  | None => throw (TypeError "setting.controls is undefined")
  | Some cs =>
      for_each 0 cs (λ _ c,
        if bool_decide (c_scope c = Some scope) && bool_decide (c_type c = Some "control")
        then setControlSettingValue c (name s) v
        else ret tt)
  end >>
  notify host_call i nm >>
  let* st' := get_state in
  if loaded st' then saveToCookie else ret tt.

(** ** Ignored scopes, exports, validation *)

(** How many times [scope] is a member of [l]. *)
Definition memberships (scope : string) (l : list string) : nat :=
  length (filter (λ x, x = scope) l).

(** The test of the inner loop of [exportSettings]:
    [val && (scope == scopes[j] || !scope)]. *)
Definition passes (scope : value) (m : gmap string value) (sc : string) : bool :=
  truthy (val_read m sc) && (loose_eq_str scope sc || negb (truthy scope)).

(** [out2] holds every name/scope pair of [out1], with the same value. *)
Definition covers (out1 out2 : exported) : Prop :=
  ∀ nm inner1 sc v,
    out1 !! nm = Some inner1 → inner1 !! sc = Some v →
    ∃ inner2, out2 !! nm = Some inner2 ∧ inner2 !! sc = Some v.

(** A line as [logSettingsError] writes it. *)
Definition prefixed (line : string) : Prop :=
  ∃ msg, line = "settings error: " ++ msg.

(** [defect st msg]: the registry of [st] has one of the four defects, and
    [msg] is what the validator says about it. *)
Inductive defect (st : state) : string → Prop :=
  | ignored_unknown sc :
      sc ∈ ignoredScopes st → sc ∉ scopes →
      defect st ("ignored scope " ++ sc ++ " does not exist.")
  | setting_unnamed i s :
      settings st !! i = Some s →
      prop_missing_or_empty (name s) = true →
      defect st ("name of setting " ++ pretty i ++ " not given")
  | kind_unknown i s cs j c :
      settings st !! i = Some s → controls s = Some cs → cs !! j = Some c →
      index_missing validTypes (c_type c) = true →
      defect st ("invalid type " ++ prop_str (c_type c) ++ " for setting " ++ pretty j
                 ++ " in setting " ++ prop_str (name s))
  | get_unnamed i s cs j c :
      settings st !! i = Some s → controls s = Some cs → cs !! j = Some c →
      c_type c = Some "get" → prop_missing_or_empty (c_name c) = true →
      defect st ("Name of get-parameter for control " ++ pretty j ++ " in setting "
                 ++ prop_str (name s) ++ " not given").

(** The defects of one control (an unknown kind, or a "get" control with no
    parameter name), of one setting, and of the whole state. *)
Definition control_defects (c : control) : nat :=
  if index_missing validTypes (c_type c) then 1
  else if bool_decide (c_type c = Some "get") && prop_missing_or_empty (c_name c) then 1
  else 0.

Definition setting_defects (s : setting) : nat :=
  (if prop_missing_or_empty (name s) then 1 else 0) +
  match controls s with
  | Some cs => sum_list (control_defects <$> cs)
  | None => 0
  end.

Definition count_defects (st : state) : nat :=
  length (filter (λ sc, sc ∉ scopes) (ignoredScopes st)) +
  sum_list (setting_defects <$> settings st).

(** The state [checkSettingsArray] leaves: the collected lines printed. *)
Definition printed (st : state) : state :=
  State (settings st) (ignoredScopes st) (loaded st)
    (World (console (outside st) ++ collected_errors st)
       (dom (outside st)) (cookies (outside st))).

(** ** How the registry may change while the module runs *)

(** The fields of an entry that nothing assigns. *)
Definition same_static (s s' : setting) : Prop :=
  name s' = name s ∧ defaultValue s' = defaultValue s ∧
  callback s' = callback s ∧ controls s' = controls s.

(** An entry whose values map exists and has the property [φ]. *)
Definition good (φ : gmap string value → Prop) (s : setting) : Prop :=
  ∃ m, val s = Some m ∧ φ m.

Definition keeps (φ : gmap string value → Prop) (s s' : setting) : Prop :=
  same_static s s' ∧ (good φ s → good φ s').

Definition evolves (φ : gmap string value → Prop) (st st' : state) : Prop :=
  length (settings st') = length (settings st) ∧
  (∀ i s, settings st !! i = Some s → ∃ s', settings st' !! i = Some s' ∧ keeps φ s s') ∧
  ignoredScopes st' = ignoredScopes st.

(** [m] lets the registry evolve, from any state where [P] holds. *)
Definition steps_on {A} (φ : gmap string value → Prop) (P : state → Prop) (m : M A) : Prop :=
  ∀ st, P st → evolves φ st (final (m st)).

Definition always (st : state) : Prop := True.

(** What the property asks of a control and of an entry for the loader to
    keep it. *)
Definition seed_ok (φ : gmap string value → Prop) (c : control) : Prop :=
  c_type c = Some "custom" → ∀ m v, φ m → φ (<[prop_str (c_scope c) := v]> m).

Definition static_ok (φ : gmap string value → Prop) (s : setting) : Prop :=
  φ {["local" := defaultValue s]} ∧
  ∀ cs c, controls s = Some cs → c ∈ cs → seed_ok φ c.

(** The rest of a turn of the first loop of [loadSettings], once [val] is
    assigned. *)
Definition load_rest (urlVars : string → value)
    (host_call : nat → setting → value → world → (exn + value) * world)
    (i : nat) (s : setting) : M unit :=
  match controls s with
  | None => throw (TypeError "setting.controls is undefined")
  | Some cs => for_each 0 cs (λ _ c, seed_control urlVars host_call i c)
  end >>
  for_each 0 scopes (λ _ scope, commit_scope host_call i scope).

(** The state right after [setting.val = []; setting.val["local"] = ...]. *)
Definition fresh_val (i : nat) (s : setting) (st : state) : state :=
  State (<[i := with_val s {["local" := defaultValue s]}]> (settings st))
    (ignoredScopes st) (loaded st) (outside st).

Definition any_values (m : gmap string value) : Prop := True.

Definition local_defined (m : gmap string value) : Prop :=
  is_defined (val_read m "local") = true.

(** Every entry gives a default value, and no computed binding writes the
    "local" scope: so it is in the table of the source. *)
Definition defaults_given (ss : list setting) : Prop :=
  ∀ s, s ∈ ss →
    defaultValue s ≠ VUndefined ∧
    ∀ cs c, controls s = Some cs → c ∈ cs →
            c_type c = Some "custom" → c_scope c ≠ Some "local".

(** Every entry has a values map whose "local" entry is defined. *)
Definition local_entries_defined (st : state) : Prop :=
  Forall (good local_defined) (settings st).

(** ** States to run the module on *)

Definition rtl_values : gmap string value :=
  <["get" := VBool true]> {["local" := VBool false]}.

Definition rtl_setting : setting :=
  Setting (Some "rtl") (VBool false) VNull (Some [get_control "get" "rtl"]) (Some rtl_values).

(** One loaded setting, "local" ignored. *)
Definition rtl_state : state :=
  State [rtl_setting] ["local"] true (World [] ∅ ∅).

(** The same setting with "local" and "get" ignored. *)
Definition rtl_global_only : state :=
  State [rtl_setting] ["local"; "get"] true (World [] ∅ ∅).

(** Every scope ignored: nothing is looked at. *)
Definition all_ignored : state :=
  State [rtl_setting] ["local"; "global"; "get"] true (World [] ∅ ∅).

(** A registry with all four defects, and a setting without controls. *)
Definition unnamed_get : control := Control (Some "get") (Some "get") None None VUndefined.

Definition slider : control := Control (Some "local") (Some "slider") None None VUndefined.

Definition broken_setting : setting :=
  Setting None VNull VNull (Some [unnamed_get; slider]) None.

Definition broken_state : state :=
  State [broken_setting; Setting (Some "x") VNull VNull None None]
    ["session"] false (World [] ∅ ∅).

(** The page of the source opened with "?userName=Bob&rtl=true". *)
Definition bob_query : string → value := query [("userName", "Bob"); ("rtl", "true")].

Definition loaded_page : state :=
  final (loadSettings bob_query (table_call bob_query) (initial_state settings_table page_dom)).

(** The scenario of the specification: one flag, off by default, that the
    query string can set. *)
Definition flag_setting : setting :=
  entry "flag" (VBool false) [get_control "get" "flag"].

Definition flag_query (text : string) : string → value := query [("flag", text)].

Definition flag_page (text : string) : state :=
  final (loadSettings (flag_query text) (table_call (flag_query text))
           (initial_state [flag_setting] ∅)).

(** The page of the source opened with "?showLineNumbers=false". *)
Definition no_line_numbers : string → value := query [("showLineNumbers", "false")].

Definition no_line_numbers_page : state :=
  final (loadSettings no_line_numbers (table_call no_line_numbers)
           (initial_state settings_table page_dom)).

(** ** Well-formed registries *)

(** What the checks of [checkSettingsArray] ask of a control: a kind among
    the three, a scope among the three, and the property its kind needs. *)
Definition control_ok (c : control) : Prop :=
  (∃ t, c_type c = Some t ∧ t ∈ validTypes) ∧
  (∃ sc, c_scope c = Some sc ∧ sc ∈ scopes) ∧
  (c_type c = Some "control" → prop_missing_or_empty (c_id c) = false) ∧
  (c_type c = Some "get" → prop_missing_or_empty (c_name c) = false) ∧
  (c_type c = Some "custom" → is_function (c_callback c) = true).

(** Of a setting: a name, and controls that are all in order. *)
Definition setting_ok (s : setting) : Prop :=
  prop_missing_or_empty (name s) = false ∧
  ∃ cs, controls s = Some cs ∧ Forall control_ok cs.

(** Of the module: ignored scopes that are scopes, settings in order. *)
Definition registry_ok (st : state) : Prop :=
  Forall (λ sc, sc ∈ scopes) (ignoredScopes st) ∧
  Forall setting_ok (settings st).

(** The message [checkSettingsArray] throws. *)
Definition validation_failed : exn :=
  Thrown "Errors occurred when checking the setting-definitions. Check the log.".

(** ** Calls that keep a relation between the states *)

(** From any state where [P] holds, [m] leaves a state that [R] relates to
    it, whether it returns or throws. *)
Definition along {A} (R : state → state → Prop) (P : state → Prop) (m : M A) : Prop :=
  ∀ st, P st → R st (final (m st)).

(** ** Widgets *)

(** The controls of kind "control" that a setting binds to [scope]. *)
Definition bound_to (scope : string) (c : control) : Prop :=
  c_scope c = Some scope ∧ c_type c = Some "control".

(** Only the values held by the widgets in [ids] may differ between [st]
    and [st']: registry, flags, console and cookies are the same, no widget
    comes or goes, and no widget changes its tag or type. *)
Definition pushes_to (ids : list string) (st st' : state) : Prop :=
  core st' = core st ∧
  console (outside st') = console (outside st) ∧
  cookies (outside st') = cookies (outside st) ∧
  (∀ id, id ∉ ids → dom (outside st') !! id = dom (outside st) !! id) ∧
  (∀ id, dom (outside st) !! id = None → dom (outside st') !! id = None) ∧
  (∀ id el, dom (outside st) !! id = Some el →
     ∃ el', dom (outside st') !! id = Some el' ∧
            tagName el' = tagName el ∧ typeAttr el' = typeAttr el).

(** The widget shows [v]: a check box is set to its truth value, a select
    list to the value itself. *)
Definition shows (v : value) (el : element) : Prop :=
  (tagName el = "input" ∧ typeAttr el = Some "checkbox" ∧ held el = VBool (truthy v)) ∨
  (tagName el = "select" ∧ held el = v).

#[global] Instance bound_to_dec scope c : Decision (bound_to scope c).
Proof. unfold bound_to. apply _. Defined.

(** The ids of the widgets a list of controls binds to [scope]. *)
Definition bound_ids (scope : string) (cs : list control) : list string :=
  (λ c, prop_str (c_id c)) <$> filter (bound_to scope) cs.

(** The loop of [setValue] over [setting.controls]. *)
Definition push_loop (j0 : nat) (nm : strprop) (scope : string) (v : value)
    (cs : list control) : M unit :=
  for_each j0 cs (λ _ c,
    if bool_decide (c_scope c = Some scope) && bool_decide (c_type c = Some "control")
    then setControlSettingValue c nm v
    else ret tt).


(** The state right after [setting.val[scope] = value] in [setValue]. *)
Definition written (i : nat) (s : setting) (m : gmap string value) (scope : string)
    (v : value) (st : state) : state :=
  State (<[i := with_val s (<[scope := v]> m)]> (settings st))
    (ignoredScopes st) (loaded st) (outside st).

(** One loaded setting bound to a check box, on a page without the box and
    on a page with it. *)
Definition stickychat_values : gmap string value := {["local" := VBool false]}.

Definition stickychat_setting : setting :=
  Setting (Some "stickychat") (VBool false) VNull
    (Some [widget_control "local" "options-stickychat"]) (Some stickychat_values).

Definition stickychat_state : state :=
  State [stickychat_setting] [] true (World [] ∅ ∅).

Definition stickychat_page : state :=
  State [stickychat_setting] [] true (World [] {["options-stickychat" := checkbox]} ∅).

(** The names of the registry, in order. *)
Definition names (st : state) : list strprop := name <$> settings st.

(** ** What the loader leaves in the values maps *)

(** [settings[i].val[sc]], undefined when there is nothing to read. *)
Definition entry_read (st : state) (i : nat) (sc : string) : value :=
  match settings st !! i with
  | Some s =>
      match val s with
      | Some m => val_read m sc
      | None => VUndefined
      end
  | None => VUndefined
  end.

(** What the "get" controls of [cs], taken in order, make of the entry for
    the scope [sc] that starts as [acc]: each truthy parameter replaces
    it. *)
Fixpoint seeded_get (urlVars : string → value) (cs : list control) (sc : string)
    (acc : value) : value :=
  match cs with
  | [] => acc
  | c :: rest =>
      let paramValue := coerce_param (urlVars (prop_str (c_name c))) in
      seeded_get urlVars rest sc
        (if bool_decide (c_type c = Some "get") && bool_decide (prop_str (c_scope c) = sc)
            && truthy paramValue
         then paramValue else acc)
  end.

(** The entry for [sc] right after [setting.val = []] and the assignment of
    the default value. *)
Definition seed_start (s : setting) (sc : string) : value :=
  if bool_decide (sc = "local") then defaultValue s else VUndefined.

(** Between [st] and [st'] no entry but entry [k] has changed, and the names
    and the ignored scopes are the same. *)
Definition touches (k : nat) (st st' : state) : Prop :=
  names st' = names st ∧
  ignoredScopes st' = ignoredScopes st ∧
  ∀ i, i ≠ k → settings st' !! i = settings st !! i.

(** The same for every entry before [lo]. *)
Definition touches_from (lo : nat) (st st' : state) : Prop :=
  names st' = names st ∧
  ignoredScopes st' = ignoredScopes st ∧
  ∀ i, (i < lo)%nat → settings st' !! i = settings st !! i.

(** The names of a state are distinct. *)
Definition distinct_names (st : state) : Prop := NoDup (names st).

(** ** Query strings *)





(** The state with a copy of [s] added at the end of the registry. *)
Definition with_copy (st : state) (s : setting) : state :=
  State (settings st ++ [s]) (ignoredScopes st) (loaded st) (outside st).

(** * Properties *)

(** ** The resolver *)

Section Resolver.

Implicit Types (st : state) (m : gmap string value) (ign scs : list string).

(** The scan stops at the first scope that is neither ignored nor
    undefined. *)
Lemma getValue_scan_first ign i s m pre sc post :
  val s = Some m →
  sc ∉ ign →
  is_defined (val_read m sc) = true →
  (∀ sc', sc' ∈ pre → sc' ∈ ign ∨ is_defined (val_read m sc') = false) →
  getValue_scan ign (Some (i, s)) (pre ++ sc :: post) = inr (val_read m sc).
Proof.
  intros Hval Hsc Hdef. induction pre as [|p pre IH]; intros Hpre; simpl.
  - rewrite bool_decide_eq_true_2 by done. by rewrite Hval, Hdef.
  - destruct (Hpre p) as [Hp|Hp]; [set_solver| |].
    + rewrite bool_decide_eq_false_2 by (intros ?; done).
      apply IH. intros ? ?. apply Hpre. set_solver.
    + case_bool_decide.
      * rewrite Hval, Hp. apply IH. intros ? ?. apply Hpre. set_solver.
      * apply IH. intros ? ?. apply Hpre. set_solver.
Qed.

(** With nothing to stop at, the scan ends on null. *)
Lemma getValue_scan_null ign i s m scs :
  val s = Some m →
  (∀ sc, sc ∈ scs → sc ∈ ign ∨ is_defined (val_read m sc) = false) →
  getValue_scan ign (Some (i, s)) scs = inr VNull.
Proof.
  intros Hval. induction scs as [|p scs IH]; intros Hall; simpl; [done|].
  assert (getValue_scan ign (Some (i, s)) scs = inr VNull) as Hrest.
  { apply IH. intros ? ?. apply Hall. set_solver. }
  case_bool_decide; [|done].
  rewrite Hval. destruct (Hall p) as [?|Hp]; [set_solver|done|].
  by rewrite Hp.
Qed.

(** Whatever the scan returns is not undefined. *)
Lemma getValue_scan_defined ign found scs v :
  getValue_scan ign found scs = inr v → is_defined v = true.
Proof.
  induction scs as [|p scs IH]; simpl; [by intros [= <-]|].
  case_bool_decide; [|done].
  destruct found as [[? s]|]; [|done].
  destruct (val s) as [m|]; [|done].
  destruct (is_defined (val_read m p)) eqn:Hd; [|done].
  by intros [= <-].
Qed.


(** A null setting makes the scan throw at the first scope it looks at. *)
Lemma getValue_scan_unregistered ign scs :
  (∃ sc, sc ∈ scs ∧ sc ∉ ign) →
  getValue_scan ign None scs = inl (TypeError "setting is null").
Proof.
  induction scs as [|p scs IH]; intros (sc & Hin & Hsc); simpl; [set_solver|].
  case_bool_decide; [done|].
  apply IH. exists sc. split; [|done].
  apply elem_of_cons in Hin as [->|?]; [|done].
  naive_solver.
Qed.

(** With every scope ignored the setting is not looked at. *)
Lemma getValue_scan_all_ignored ign found scs :
  (∀ sc, sc ∈ scs → sc ∈ ign) → getValue_scan ign found scs = inr VNull.
Proof.
  induction scs as [|p scs IH]; intros Hall; simpl; [done|].
  rewrite bool_decide_eq_false_2.
  - apply IH. intros sc Hsc. apply Hall. by right.
  - intros Hnot. apply Hnot, Hall. by left.
Qed.


End Resolver.


(** ** Calls that leave the registry alone *)

Create HintDb frame discriminated.

Lemma outside_only_ret {A} (a : A) : outside_only (ret a).
Proof. by intros st. Qed.

Lemma outside_only_throw {A} e : outside_only (@throw A e).
Proof. by intros st. Qed.

Lemma outside_only_bind {A B} (m : M A) (k : A → M B) :
  outside_only m → (∀ a, outside_only (k a)) → outside_only (bind m k).
Proof.
  intros Hm Hk st. unfold bind. specialize (Hm st).
  destruct (m st) as [a st'|e st']; simpl in *; [|done].
  by rewrite Hk.
Qed.

Lemma outside_only_get_state : outside_only get_state.
Proof. by intros st. Qed.

Lemma outside_only_lift {A} (f : state → exn + A) : outside_only (lift f).
Proof. intros st. unfold lift. by destruct (f st). Qed.

Lemma outside_only_set_outside w : outside_only (set_outside w).
Proof. by intros st. Qed.

Lemma outside_only_read_setting i : outside_only (read_setting i).
Proof. intros st. unfold read_setting. by destruct (settings st !! i). Qed.

Lemma outside_only_for_each {A} (body : nat → A → M unit) xs j0 :
  (∀ j x, outside_only (body j x)) → outside_only (for_each j0 xs body).
Proof.
  intros Hbody. revert j0. induction xs as [|x xs IH]; intros j0; simpl.
  - apply outside_only_ret.
  - apply outside_only_bind; auto.
Qed.

Lemma outside_only_for_range (body : nat → M unit) lo n :
  (∀ i, outside_only (body i)) → outside_only (for_range lo n body).
Proof.
  intros Hbody. revert lo. induction n as [|n IH]; intros lo; simpl.
  - apply outside_only_ret.
  - apply outside_only_bind; auto.
Qed.

#[local] Hint Resolve outside_only_ret outside_only_throw outside_only_get_state
  outside_only_lift outside_only_set_outside outside_only_read_setting : frame.

Section Frames.

Variable host_call : nat → setting → value → world → (exn + value) * world.

Lemma outside_only_call_value callee s arg :
  outside_only (call_value host_call callee s arg).
Proof.
  destruct callee; simpl; auto with frame.
  intros st. unfold call_function.
  by destruct (host_call f s arg (outside st)) as [[e|v] w].
Qed.

Lemma outside_only_saveToCookie : outside_only saveToCookie.
Proof.
  unfold saveToCookie.
  apply outside_only_bind; [auto with frame|]. intros ?.
  apply outside_only_bind; auto with frame.
Qed.

Lemma outside_only_setControlSettingValue c nm v :
  outside_only (setControlSettingValue c nm v).
Proof.
  unfold setControlSettingValue.
  apply outside_only_bind; [auto with frame|]. intros st.
  destruct (dom (outside st) !! prop_str (c_id c)); [|auto with frame].
  repeat case_match; auto with frame.
Qed.

Lemma outside_only_notify i nm : outside_only (notify host_call i nm).
Proof.
  unfold notify. apply outside_only_bind; [auto with frame|]. intros s.
  destruct (truthy (callback s)); [|auto with frame].
  apply outside_only_bind; [auto with frame|]. intros v.
  apply outside_only_bind; [apply outside_only_call_value|auto with frame].
Qed.

Lemma outside_only_after_write i s nm scope v :
  outside_only (after_write host_call i s nm scope v).
Proof.
  unfold after_write. apply outside_only_bind.
  - destruct (controls s); [|auto with frame].
    apply outside_only_for_each. intros _ c.
    case_match; auto using outside_only_setControlSettingValue with frame.
  - intros _. apply outside_only_bind; [apply outside_only_notify|]. intros _.
    apply outside_only_bind; [auto with frame|]. intros st'.
    destruct (loaded st'); auto using outside_only_saveToCookie with frame.
Qed.

(** [setValue] unfolded for a recognised scope. *)
Lemma setValue_recognised nm scope v st :
  scope ∈ scopes →
  setValue host_call nm scope v st =
    match getSetting st nm with
    | None => Throw (TypeError "setting is null") st
    | Some (i, s) => bind (write_val i scope v) (λ _, after_write host_call i s nm scope v) st
    end.
Proof.
  intros Hin. unfold setValue.
  rewrite bool_decide_eq_false_2 by (intros ?; done).
  unfold bind at 1, get_state.
  by destruct (getSetting st nm) as [[i s]|].
Qed.

Lemma getSetting_lookup st nm i s :
  getSetting st nm = Some (i, s) → settings st !! i = Some s ∧ name s = nm.
Proof. intros (? & ? & _)%list_find_Some. done. Qed.

(** The registry after [setValue] on a registered, loaded setting: the one
    entry written, whatever the widgets, the callback and the cookie do. *)
Lemma setValue_core nm scope v st i s m :
  scope ∈ scopes →
  getSetting st nm = Some (i, s) →
  val s = Some m →
  core (final (setValue host_call nm scope v st)) =
    (<[i := with_val s (<[scope := v]> m)]> (settings st), ignoredScopes st, loaded st).
Proof.
  intros Hin Hget Hval. rewrite setValue_recognised, Hget by done.
  apply getSetting_lookup in Hget as [Hi _].
  unfold bind, write_val, store_val. rewrite Hi, Hval.
  pose proof (outside_only_after_write i s nm scope v) as Hframe.
  specialize (Hframe (State (<[i := with_val s (<[scope := v]> m)]> (settings st))
                        (ignoredScopes st) (loaded st) (outside st))).
  simpl in Hframe. exact Hframe.
Qed.

(** Writing an entry's values does not change which entry a name finds. *)
Lemma getSetting_after_write st st' nm i s m' :
  getSetting st nm = Some (i, s) →
  settings st' = <[i := with_val s m']> (settings st) →
  getSetting st' nm = Some (i, with_val s m').
Proof.
  intros (Hi & Hnm & Hleast)%list_find_Some Hst'. unfold getSetting. rewrite Hst'.
  apply list_find_insert_Some. right; left.
  split_and!; [done|done|by eapply lookup_lt_Some|done|done].
Qed.

End Frames.

(** ** The mutator *)

Section Mutator.

Variable host_call : nat → setting → value → world → (exn + value) * world.

(** C3. [setValue] with a scope that is not "local", "global" or "get"
    throws "Unknown scope" and leaves the whole state, so every setting's
    values, as it was. *)
Theorem setValue_unknown_scope st nm scope v :
  scope ∉ scopes →
  setValue host_call nm scope v st = Throw (Thrown "Unknown scope") st ∧
  settings (final (setValue host_call nm scope v st)) = settings st.
Proof.
  intros Hscope. unfold setValue.
  rewrite bool_decide_eq_true_2 by done. done.
Qed.

(** C5, amended. For a registered setting that has its values map and a
    recognised scope: after [setValue(name, scope, v)], returned or thrown,
    [getValue(name)] with the two other scopes ignored and [scope] itself
    not ignored is [v] when [v] is not undefined, and null when it is. *)
Theorem setValue_then_getValue st nm scope v i s m st2 :
  getSetting st nm = Some (i, s) →
  val s = Some m →
  scope ∈ scopes →
  settings st2 = settings (final (setValue host_call nm scope v st)) →
  scope ∉ ignoredScopes st2 →
  (∀ sc, sc ∈ scopes → sc ≠ scope → sc ∈ ignoredScopes st2) →
  (v ≠ VUndefined → getValue st2 nm = inr v) ∧
  (v = VUndefined → getValue st2 nm = inr VNull).
Proof.
  intros Hget Hval Hscope Hst2 Hnot Hothers.
  pose proof (setValue_core host_call nm scope v st i s m Hscope Hget Hval) as Hcore.
  unfold core in Hcore. injection Hcore as Hsettings _ _.
  rewrite Hsettings in Hst2.
  unfold getValue.
  rewrite (getSetting_after_write st st2 nm i s _ Hget Hst2).
  assert (val_read (<[scope := v]> m) scope = v) as Hread.
  { unfold val_read. by rewrite lookup_insert_eq. }
  split.
  - intros Hv.
    assert (is_defined v = true) as Hdef by (by destruct v).
    assert (∃ pre post, scopes = (pre ++ scope :: post)%list ∧ scope ∉ pre)
      as (pre & post & Hsplit & Hpre).
    { unfold scopes in *.
      apply elem_of_cons in Hscope as [->|Hscope].
      { exists [], ["global"; "get"]. split; [done|]. apply not_elem_of_nil. }
      apply elem_of_cons in Hscope as [->|Hscope].
      { exists ["local"], ["get"]. split; [done|]. by apply (bool_decide_unpack _). }
      apply elem_of_cons in Hscope as [->|Hscope]; [|by apply elem_of_nil in Hscope].
      exists ["local"; "global"], []. split; [done|]. by apply (bool_decide_unpack _). }
    rewrite Hsplit.
    rewrite (getValue_scan_first _ i _ (<[scope := v]> m) pre scope post);
      [by rewrite Hread|done|done|by rewrite Hread|].
    intros sc' Hsc'. left. apply Hothers.
    + rewrite Hsplit. apply elem_of_app. by left.
    + intros ->. done.
  - intros ->.
    apply (getValue_scan_null _ i _ (<[scope := VUndefined]> m)); [done|].
    intros sc Hsc. destruct (decide (sc = scope)) as [->|Hne].
    + right. by rewrite Hread.
    + left. by apply Hothers.
Qed.

(** C10, amended. When no setting carries the name, [getSetting] gives null
    without an error; [setValue] with a recognised scope then throws a type
    error before it changes anything, and [getValue] throws a type error as
    soon as one of the three scopes is not ignored; with all three ignored
    it returns null. *)
Theorem unregistered_name st nm :
  (∀ s, s ∈ settings st → name s ≠ nm) →
  getSetting st nm = None ∧
  ((∃ sc, sc ∈ scopes ∧ sc ∉ ignoredScopes st) →
   getValue st nm = inl (TypeError "setting is null")) ∧
  ((∀ sc, sc ∈ scopes → sc ∈ ignoredScopes st) → getValue st nm = inr VNull) ∧
  (∀ scope v, scope ∈ scopes →
     setValue host_call nm scope v st = Throw (TypeError "setting is null") st).
Proof.
  intros Hnone.
  assert (getSetting st nm = None) as Hget.
  { apply list_find_None, Forall_forall. exact Hnone. }
  split_and!; [done| | |].
  - intros Hsc. unfold getValue. rewrite Hget. by apply getValue_scan_unregistered.
  - intros Hall. unfold getValue. rewrite Hget. by apply getValue_scan_all_ignored.
  - intros scope v Hscope. by rewrite setValue_recognised, Hget.
Qed.

End Mutator.

(** "session" is not a scope. *)
Lemma setValue_unknown_scope_witness :
  setValue (table_call (query [])) (Some "rtl") "session" (VBool true) rtl_state
    = Throw (Thrown "Unknown scope") rtl_state.
Proof.
  apply (setValue_unknown_scope (table_call (query [])) rtl_state (Some "rtl") "session").
  by_evaluation.
Defined.

(** C5 as stated fails for the value undefined: it is written, and the
    resolver then answers null. *)
Lemma setValue_undefined_reads_null :
  ∃ st',
    setValue (table_call (query [])) (Some "rtl") "global" VUndefined rtl_global_only
      = Ret tt st' ∧
    ignoredScopes st' = ["local"; "get"] ∧
    getValue st' (Some "rtl") = inr VNull ∧
    getValue st' (Some "rtl") ≠ inr VUndefined.
Proof.
  eexists. split; [vm_compute; reflexivity|].
  split; [reflexivity|]. split; [vm_compute; reflexivity|].
  vm_compute. discriminate.
Qed.

(** A string written to "global" is read back when only "global" counts. *)
Lemma setValue_then_getValue_witness :
  getValue (final (setValue (table_call (query [])) (Some "rtl") "global" (VStr "yes")
                     rtl_global_only)) (Some "rtl") = inr (VStr "yes").
Proof.
  apply (setValue_then_getValue (table_call (query [])) rtl_global_only (Some "rtl")
           "global" (VStr "yes") 0 rtl_setting rtl_values); [..|discriminate].
  - reflexivity.
  - reflexivity.
  - by_evaluation.
  - reflexivity.
  - by_evaluation.
  - intros sc Hsc Hne.
    apply elem_of_cons in Hsc as [->|Hsc]; [by_evaluation|].
    apply elem_of_cons in Hsc as [->|Hsc]; [done|].
    apply elem_of_cons in Hsc as [->|Hsc]; [|by apply elem_of_nil in Hsc].
    by_evaluation.
Defined.

(** C10 as stated fails when all three scopes are ignored: the loop never
    touches the null setting and [getValue] returns null. *)
Lemma getValue_unregistered_all_ignored :
  getSetting all_ignored (Some "nope") = None ∧
  getValue all_ignored (Some "nope") = inr VNull.
Proof. split; vm_compute; reflexivity. Qed.

(** No setting is called "nope". *)
Lemma unregistered_name_witness :
  getSetting rtl_state (Some "nope") = None ∧
  getValue rtl_state (Some "nope") = inl (TypeError "setting is null") ∧
  setValue (table_call (query [])) (Some "nope") "get" (VBool true) rtl_state
    = Throw (TypeError "setting is null") rtl_state.
Proof.
  destruct (unregistered_name (table_call (query [])) rtl_state (Some "nope"))
    as (Hnull & Hget & _ & Hset).
  - intros s Hs. apply list_elem_of_singleton in Hs as ->. discriminate.
  - split; [exact Hnull|]. split.
    + apply Hget. exists "get". split; by_evaluation.
    + apply Hset. by_evaluation.
Defined.

(** ** The ignored scopes *)

Section IgnoreScope.

Implicit Types (l : list string) (scope : string).

Lemma memberships_absent scope l : scope ∉ l → memberships scope l = 0.
Proof.
  unfold memberships. induction l as [|x l IH]; intros Hnot; [done|].
  apply not_elem_of_cons in Hnot as [Hne Hnot].
  rewrite filter_cons_False by congruence. auto.
Qed.

Lemma memberships_push scope l :
  memberships scope (l ++ [scope]) = S (memberships scope l).
Proof.
  unfold memberships. rewrite filter_app, length_app.
  rewrite filter_cons_True by done. simpl. lia.
Qed.

Lemma memberships_NoDup scope l :
  NoDup l → scope ∈ l → memberships scope l = 1.
Proof.
  unfold memberships. induction 1 as [|x l Hx Hnd IH]; intros Hin.
  - by apply elem_of_nil in Hin.
  - destruct (decide (x = scope)) as [->|Hne].
    + rewrite filter_cons_True by done. simpl.
      fold (memberships scope l). by rewrite (memberships_absent scope l Hx).
    + rewrite filter_cons_False by done.
      apply elem_of_cons in Hin as [?|?]; [congruence|auto].
Qed.

Lemma remove_first_subseteq scope l x : x ∈ remove_first scope l → x ∈ l.
Proof.
  induction l as [|y l IH]; simpl; [done|].
  case_bool_decide.
  - intros ?. by apply elem_of_cons; right.
  - intros [->|?]%elem_of_cons; apply elem_of_cons; auto.
Qed.

Lemma remove_first_NoDup scope l : NoDup l → NoDup (remove_first scope l).
Proof.
  induction 1 as [|y l Hy Hnd IH]; simpl; [constructor|].
  case_bool_decide; [done|].
  constructor; [|done]. intros Hin. by apply Hy, (remove_first_subseteq scope).
Qed.

(** The ignored scopes never hold a scope twice: they start empty and only
    [setIgnoreScope] changes them. *)
Lemma setIgnoreScope_NoDup st scope ignore :
  NoDup (ignoredScopes st) →
  NoDup (ignoredScopes (final (setIgnoreScope scope ignore st))).
Proof.
  intros Hnd. unfold setIgnoreScope.
  case_bool_decide; [done|].
  destruct (truthy ignore); simpl.
  - case_bool_decide; simpl; [done|].
    apply NoDup_app. split_and!; [done| |apply NoDup_singleton].
    intros x Hx ->%list_elem_of_singleton. done.
  - case_bool_decide; simpl; [|done]. by apply remove_first_NoDup.
Qed.

(** C6. Asking twice to ignore a recognised scope leaves it in the ignored
    scopes exactly once, the second call changing nothing; asking to stop
    ignoring a scope that is not ignored changes nothing; a scope that is
    not recognised makes the call throw. *)
Theorem setIgnoreScope_idempotent st scope ignore :
  NoDup (ignoredScopes st) →
  (scope ∈ scopes → truthy ignore = true →
   ∃ st1,
     setIgnoreScope scope ignore st = Ret tt st1 ∧
     setIgnoreScope scope ignore st1 = Ret tt st1 ∧
     memberships scope (ignoredScopes st1) = 1) ∧
  (scope ∈ scopes → truthy ignore = false → scope ∉ ignoredScopes st →
   setIgnoreScope scope ignore st = Ret tt st) ∧
  (scope ∉ scopes →
   setIgnoreScope scope ignore st = Throw (Thrown ("Scope " ++ scope ++ " does not exist.")) st).
Proof.
  intros Hnd. unfold setIgnoreScope. split_and!.
  - intros Hscope Htrue.
    rewrite bool_decide_eq_false_2 by (intros ?; done). rewrite Htrue. simpl.
    destruct (decide (scope ∈ ignoredScopes st)) as [Hin|Hnot].
    + exists st. rewrite bool_decide_eq_true_2 by done. simpl.
      split_and!; [done|done|by apply memberships_NoDup].
    + rewrite bool_decide_eq_false_2 by done. simpl.
      eexists. split; [done|]. simpl.
      rewrite bool_decide_eq_true_2 by (apply elem_of_app; right; by left). simpl.
      split; [done|].
      by rewrite memberships_push, memberships_absent.
  - intros Hscope Hfalse Hnot.
    rewrite bool_decide_eq_false_2 by (intros ?; done). rewrite Hfalse. simpl.
    by rewrite bool_decide_eq_false_2 by done.
  - intros Hscope. by rewrite bool_decide_eq_true_2 by done.
Qed.

End IgnoreScope.

(** The three cases on [rtl_state]. *)
Lemma setIgnoreScope_idempotent_witness :
  (∃ st1,
     setIgnoreScope "global" (VBool true) rtl_state = Ret tt st1 ∧
     setIgnoreScope "global" (VBool true) st1 = Ret tt st1 ∧
     memberships "global" (ignoredScopes st1) = 1) ∧
  setIgnoreScope "get" (VBool false) rtl_state = Ret tt rtl_state ∧
  setIgnoreScope "session" (VBool true) rtl_state
    = Throw (Thrown "Scope session does not exist.") rtl_state.
Proof.
  assert (NoDup (ignoredScopes rtl_state)) as Hnd.
  { by_evaluation. }
  split; [|split].
  - apply (setIgnoreScope_idempotent rtl_state "global" (VBool true) Hnd).
    + by_evaluation.
    + reflexivity.
  - apply (setIgnoreScope_idempotent rtl_state "get" (VBool false) Hnd).
    + by_evaluation.
    + reflexivity.
    + by_evaluation.
  - apply (setIgnoreScope_idempotent rtl_state "session" (VBool true) Hnd).
    by_evaluation.
Defined.

(** ** The exporter *)

Section Exporter.

Implicit Types (m inner : gmap string value) (out : exported) (scope : value).

Lemma export_scopes_Some m scope scs inner sc v :
  export_scopes m scope scs inner !! sc = Some v →
  inner !! sc = Some v ∨ (sc ∈ scs ∧ passes scope m sc = true ∧ v = val_read m sc).
Proof.
  revert inner. induction scs as [|sc0 scs IH]; intros inner; simpl; [auto|].
  intros [Hin|(Hin & Hp & ->)]%IH.
  - fold (passes scope m sc0) in Hin. destruct (passes scope m sc0) eqn:Hp; [|auto].
    destruct (decide (sc0 = sc)) as [->|Hne].
    + rewrite lookup_insert_eq in Hin. injection Hin as <-.
      right. split_and!; [by left|done|done].
    + rewrite lookup_insert_ne in Hin by done. auto.
  - right. split_and!; [by right|done|done].
Qed.

Lemma export_scopes_keeps m scope scs inner sc :
  inner !! sc = Some (val_read m sc) →
  export_scopes m scope scs inner !! sc = Some (val_read m sc).
Proof.
  revert inner. induction scs as [|sc0 scs IH]; intros inner Hin; simpl; [done|].
  apply IH. case_match; [|done].
  destruct (decide (sc0 = sc)) as [->|Hne].
  - by rewrite lookup_insert_eq.
  - by rewrite lookup_insert_ne.
Qed.

Lemma export_scopes_passes m scope scs inner sc :
  sc ∈ scs → passes scope m sc = true →
  export_scopes m scope scs inner !! sc = Some (val_read m sc).
Proof.
  revert inner. induction scs as [|sc0 scs IH]; intros inner Hin Hp; simpl.
  - by apply elem_of_nil in Hin.
  - apply elem_of_cons in Hin as [->|Hin]; [|by apply IH].
    fold (passes scope m sc0). rewrite Hp.
    apply export_scopes_keeps. by rewrite lookup_insert_eq.
Qed.

(** A falsy argument lets through whatever any argument lets through. *)
Lemma passes_falsy scope scope' m sc :
  truthy scope = false → passes scope' m sc = true → passes scope m sc = true.
Proof.
  unfold passes. intros -> [-> _]%andb_true_iff. simpl. by rewrite orb_true_r.
Qed.

(** Where an entry of the result comes from. *)
Lemma export_loop_Some ss scope out out' nm inner :
  export_loop ss scope out = inr out' →
  out' !! nm = Some inner →
  out !! nm = Some inner ∨
  ∃ s m, s ∈ ss ∧ prop_str (name s) = nm ∧ val s = Some m ∧
         inner = export_scopes m scope scopes ∅.
Proof.
  revert out. induction ss as [|s ss IH]; intros out; cbn [export_loop].
  - intros [= <-]. auto.
  - destruct (val s) as [m|] eqn:Hval; [|done].
    intros Hloop Hnm. destruct (IH _ Hloop Hnm) as [Hout|(s' & m' & Hin & ?)].
    + destruct (decide (prop_str (name s) = nm)) as [Heq|Hne].
      * rewrite Heq, lookup_insert_eq in Hout.
        assert (inner = export_scopes m scope scopes ∅) as -> by congruence.
        right. exists s, m. split_and!; [by left|done|done|done].
      * rewrite lookup_insert_ne in Hout by done. auto.
    + right. exists s', m'. split; [by right|done].
Qed.

(** Entries under other names pass through the loop. *)
Lemma export_loop_other ss scope out out' nm :
  (∀ s, s ∈ ss → prop_str (name s) ≠ nm) →
  export_loop ss scope out = inr out' →
  out' !! nm = out !! nm.
Proof.
  revert out. induction ss as [|s ss IH]; intros out Hss; cbn [export_loop].
  - by intros [= <-].
  - destruct (val s) as [m|]; [|done]. intros Hloop.
    rewrite (IH _ (λ s' Hs', Hss s' (list_elem_of_further _ _ _ Hs')) Hloop).
    apply lookup_insert_ne, Hss. by left.
Qed.

(** The last entry under a name is the one the result keeps. *)
Lemma export_loop_last pre s post scope out out' m :
  export_loop (pre ++ s :: post) scope out = inr out' →
  val s = Some m →
  (∀ s', s' ∈ post → prop_str (name s') ≠ prop_str (name s)) →
  out' !! prop_str (name s) = Some (export_scopes m scope scopes ∅).
Proof.
  intros Hloop Hval Hpost. revert out Hloop.
  induction pre as [|p pre IH]; intros out; cbn [export_loop app].
  - rewrite Hval. intros Hloop.
    rewrite (export_loop_other _ _ _ _ _ Hpost Hloop).
    apply lookup_insert_eq.
  - destruct (val p); [|done]. apply IH.
Qed.

Lemma export_loop_covers ss falsy scope out1 out2 out1' out2' :
  truthy falsy = false →
  covers out1 out2 →
  export_loop ss scope out1 = inr out1' →
  export_loop ss falsy out2 = inr out2' →
  covers out1' out2'.
Proof.
  intros Hfalsy. revert out1 out2.
  induction ss as [|s ss IH]; intros out1 out2 Hcov; cbn [export_loop].
  - by intros [= <-] [= <-].
  - destruct (val s) as [m|]; [|done]. apply IH.
    intros nm inner1 sc v Hnm Hsc.
    destruct (decide (prop_str (name s) = nm)) as [Heq|Hne].
    + rewrite Heq, lookup_insert_eq in Hnm.
      assert (inner1 = export_scopes m scope scopes ∅) as -> by congruence.
      rewrite Heq, lookup_insert_eq. eexists. split; [done|].
      apply export_scopes_Some in Hsc as [Hempty|(Hin & Hp & ->)].
      * by rewrite lookup_empty in Hempty.
      * apply export_scopes_passes; [done|]. by eapply passes_falsy.
    + rewrite lookup_insert_ne in Hnm by done.
      rewrite lookup_insert_ne by done. by eapply Hcov.
Qed.

(** C7. Every pair in the result of [exportSettings(scope)] comes from a
    setting of that name whose recorded value for that scope is truthy (and,
    for a truthy argument, from the scope asked for); with a falsy argument
    every truthy value of every scope is exported; and the result without
    argument holds every name/scope pair of [exportSettings("local")]. *)
Theorem exportSettings_truthy_and_superset st :
  (∀ scope out nm inner sc v,
     exportSettings st scope = inr out →
     out !! nm = Some inner → inner !! sc = Some v →
     truthy v = true ∧ v ≠ VUndefined ∧ sc ∈ scopes ∧
     (truthy scope = true → scope = VStr sc) ∧
     ∃ s m, s ∈ settings st ∧ prop_str (name s) = nm ∧ val s = Some m ∧
            val_read m sc = v) ∧
  (∀ scope out pre s post m sc,
     truthy scope = false →
     exportSettings st scope = inr out →
     settings st = (pre ++ s :: post)%list →
     (∀ s', s' ∈ post → prop_str (name s') ≠ prop_str (name s)) →
     val s = Some m → sc ∈ scopes → truthy (val_read m sc) = true →
     ∃ inner, out !! prop_str (name s) = Some inner ∧
              inner !! sc = Some (val_read m sc)) ∧
  (∀ outAll outLocal,
     exportSettings st VUndefined = inr outAll →
     exportSettings st (VStr "local") = inr outLocal →
     covers outLocal outAll).
Proof.
  unfold exportSettings. split_and!.
  - intros scope out nm inner sc v Hloop Hnm Hsc.
    destruct (export_loop_Some _ _ _ _ _ _ Hloop Hnm) as [Hempty|(s & m & Hs & Hkey & Hval & ->)].
    { by rewrite lookup_empty in Hempty. }
    apply export_scopes_Some in Hsc as [Hempty|(Hin & Hp & ->)].
    { by rewrite lookup_empty in Hempty. }
    unfold passes in Hp. apply andb_true_iff in Hp as [Htruthy Hscope].
    split_and!; [done|by destruct (val_read m sc)|done| |by exists s, m].
    intros Hgiven. rewrite Hgiven in Hscope. simpl in Hscope.
    rewrite orb_false_r in Hscope.
    destruct scope; try done. simpl in Hscope.
    by apply String.eqb_eq in Hscope as ->.
  - intros scope out pre s post m sc Hfalsy Hloop Hsplit Hpost Hval Hsc Htruthy.
    rewrite Hsplit in Hloop.
    rewrite (export_loop_last _ _ _ _ _ _ _ Hloop Hval Hpost).
    eexists. split; [done|].
    apply export_scopes_passes; [done|].
    unfold passes. rewrite Htruthy, Hfalsy. simpl. by rewrite orb_true_r.
  - intros outAll outLocal HAll HLocal.
    eapply (export_loop_covers _ VUndefined (VStr "local") ∅ ∅); [done| |done|done].
    intros nm inner1 sc v Hempty. by rewrite lookup_empty in Hempty.
Qed.

End Exporter.

(** [rtl_state] exported in full: the true "get" value is there, the false
    "local" value is not. *)
Lemma exportSettings_truthy_and_superset_witness :
  ∃ out inner,
    exportSettings rtl_state VNull = inr out ∧
    out !! "rtl" = Some inner ∧
    inner !! "get" = Some (VBool true) ∧
    inner !! "local" = None.
Proof.
  destruct (exportSettings rtl_state VNull) as [e|out] eqn:Hout;
    [vm_compute in Hout; discriminate|].
  destruct (exportSettings_truthy_and_superset rtl_state) as (Hpairs & Hall & _).
  destruct (Hall VNull out [] rtl_setting [] rtl_values "get") as (inner & Hnm & Hget).
  - reflexivity.
  - exact Hout.
  - reflexivity.
  - intros s' Hs'. by apply elem_of_nil in Hs'.
  - reflexivity.
  - by_evaluation.
  - reflexivity.
  - exists out, inner. split; [reflexivity|]. split; [exact Hnm|]. split; [exact Hget|].
    destruct (inner !! "local") as [v|] eqn:Hlocal; [|reflexivity].
    destruct (Hpairs VNull out "rtl" inner "local" v Hout Hnm Hlocal)
      as (Htruthy & _ & _ & _ & s & m & Hs & _ & Hval & Hread).
    apply list_elem_of_singleton in Hs as ->.
    injection Hval as <-. rewrite <- Hread in Htruthy.
    vm_compute in Htruthy. discriminate.
Defined.

(** ** The validator *)

Section Validator.

Implicit Types (errors : list string) (c : control) (s : setting).

(** Every check only appends to [errors]. *)
Lemma check_control_app sn j c errors :
  check_control sn j c errors = (errors ++ check_control sn j c [])%list.
Proof.
  unfold check_control, logSettingsError.
  repeat case_match; simpl; rewrite <- ?app_assoc, ?app_nil_r; done.
Qed.

Lemma check_controls_app sn j cs errors :
  check_controls sn j cs errors = (errors ++ check_controls sn j cs [])%list.
Proof.
  revert j errors. induction cs as [|c cs IH]; intros j errors; simpl.
  - by rewrite app_nil_r.
  - rewrite IH, (IH _ (check_control sn j c [])), (check_control_app sn j c errors).
    by rewrite app_assoc.
Qed.

Lemma check_setting_app i s errors :
  check_setting i s errors = (errors ++ check_setting i s [])%list.
Proof.
  unfold check_setting, logSettingsError.
  destruct (negb (prop_missing_or_empty (name s))), (controls s) as [cs|]; simpl;
    rewrite <- ?app_assoc, ?app_nil_r; try done.
  - apply check_controls_app.
  - rewrite check_controls_app, (check_controls_app _ _ _ [_]). by rewrite app_assoc.
Qed.

Lemma check_settings_app i ss errors :
  check_settings i ss errors = (errors ++ check_settings i ss [])%list.
Proof.
  revert i errors. induction ss as [|s ss IH]; intros i errors; simpl.
  - by rewrite app_nil_r.
  - rewrite IH, (IH _ (check_setting i s [])), (check_setting_app i s errors).
    by rewrite app_assoc.
Qed.

Lemma check_ignored_app ign errors :
  check_ignored ign errors = (errors ++ check_ignored ign [])%list.
Proof.
  revert errors. induction ign as [|sc ign IH]; intros errors; simpl.
  - by rewrite app_nil_r.
  - rewrite IH, (IH (if bool_decide (sc ∉ scopes) then _ else _)).
    unfold logSettingsError. case_bool_decide; simpl; [|done].
    by rewrite <- app_assoc.
Qed.

Lemma collected_errors_split st :
  collected_errors st =
    (check_ignored (ignoredScopes st) [] ++ check_settings 0 (settings st) [])%list.
Proof. unfold collected_errors. apply check_settings_app. Qed.

(** *** Every line carries the prefix *)

Lemma prefixed_log errors msg :
  Forall prefixed errors → Forall prefixed (logSettingsError errors msg).
Proof.
  intros H. apply Forall_app. split; [done|].
  apply Forall_singleton. by exists msg.
Qed.

Lemma check_control_prefixed sn j c errors :
  Forall prefixed errors → Forall prefixed (check_control sn j c errors).
Proof.
  intros H. unfold check_control.
  repeat case_match; repeat apply prefixed_log; done.
Qed.

Lemma check_controls_prefixed sn j cs errors :
  Forall prefixed errors → Forall prefixed (check_controls sn j cs errors).
Proof.
  revert j errors. induction cs as [|c cs IH]; intros j errors H; simpl; [done|].
  by apply IH, check_control_prefixed.
Qed.

Lemma check_setting_prefixed i s errors :
  Forall prefixed errors → Forall prefixed (check_setting i s errors).
Proof.
  intros H. unfold check_setting.
  destruct (negb (prop_missing_or_empty (name s))), (controls s);
    repeat first [apply check_controls_prefixed | apply prefixed_log]; done.
Qed.

Lemma check_settings_prefixed i ss errors :
  Forall prefixed errors → Forall prefixed (check_settings i ss errors).
Proof.
  revert i errors. induction ss as [|s ss IH]; intros i errors H; simpl; [done|].
  by apply IH, check_setting_prefixed.
Qed.

Lemma check_ignored_prefixed ign errors :
  Forall prefixed errors → Forall prefixed (check_ignored ign errors).
Proof.
  revert errors. induction ign as [|sc ign IH]; intros errors H; simpl; [done|].
  apply IH. case_bool_decide; [by apply prefixed_log|done].
Qed.

Lemma collected_errors_prefixed st : Forall prefixed (collected_errors st).
Proof.
  unfold collected_errors. apply check_settings_prefixed, check_ignored_prefixed.
  constructor.
Qed.

(** *** [errors != 0] holds exactly when a line was collected *)

(** The comparison on a few arrays. *)
Example array_ne_zero_examples :
  array_ne_zero [] = false ∧ array_ne_zero ["settings error: x"] = true ∧
  array_ne_zero ["0"] = false ∧ array_ne_zero [" 0x00 "] = false ∧
  array_ne_zero ["0"; "0"] = true ∧ array_ne_zero ["1e-400"] = false ∧
  array_ne_zero ["-.0e9"] = false ∧ array_ne_zero ["12."] = true ∧
  array_ne_zero ["."] = true ∧ array_ne_zero ["5e-324"] = true.
Proof. vm_compute. repeat split; reflexivity. Qed.

Lemma array_ne_zero_prefixed errors :
  Forall prefixed errors → array_ne_zero errors = bool_decide (errors ≠ []).
Proof.
  destruct 1 as [|line rest [msg ->] _]; [done|].
  rewrite bool_decide_eq_true_2 by done.
  unfold array_ne_zero.
  assert (∃ r, join_comma (("settings error: " ++ msg) :: rest) = String "s"%char r)
    as [r ->]; [|done].
  destruct rest; simpl; by eexists.
Qed.

(** *** Where a line of a single check ends up *)

Lemma check_controls_cons sn j c cs :
  check_controls sn j (c :: cs) [] =
    (check_control sn j c [] ++ check_controls sn (S j) cs [])%list.
Proof. simpl. apply check_controls_app. Qed.

Lemma check_settings_cons i s ss :
  check_settings i (s :: ss) [] =
    (check_setting i s [] ++ check_settings (S i) ss [])%list.
Proof. simpl. apply check_settings_app. Qed.

Lemma elem_of_check_controls sn j cs k c line :
  cs !! k = Some c →
  line ∈ check_control sn (j + k) c [] →
  line ∈ check_controls sn j cs [].
Proof.
  revert j k. induction cs as [|c0 cs IH]; intros j k Hk Hline; [done|].
  rewrite check_controls_cons. apply elem_of_app.
  destruct k as [|k]; simpl in Hk.
  - injection Hk as ->. left. by rewrite Nat.add_0_r in Hline.
  - right. apply (IH (S j) k Hk). by rewrite Nat.add_succ_r in Hline.
Qed.

Lemma elem_of_check_settings i0 ss i s line :
  ss !! i = Some s →
  line ∈ check_setting (i0 + i) s [] →
  line ∈ check_settings i0 ss [].
Proof.
  revert i0 i. induction ss as [|s0 ss IH]; intros i0 i Hi Hline; [done|].
  rewrite check_settings_cons. apply elem_of_app.
  destruct i as [|i]; simpl in Hi.
  - injection Hi as ->. left. by rewrite Nat.add_0_r in Hline.
  - right. apply (IH (S i0) i Hi). by rewrite Nat.add_succ_r in Hline.
Qed.

Lemma elem_of_check_ignored ign sc :
  sc ∈ ign → sc ∉ scopes →
  ("settings error: " ++ "ignored scope " ++ sc ++ " does not exist.") ∈ check_ignored ign [].
Proof.
  intros Hin Hbad. induction ign as [|x ign IH]; [by apply elem_of_nil in Hin|].
  simpl. rewrite check_ignored_app. apply elem_of_app.
  apply elem_of_cons in Hin as [<-|Hin]; [|by right; apply IH].
  left. rewrite bool_decide_eq_true_2 by done. by left.
Qed.

Lemma elem_of_log errors msg :
  ("settings error: " ++ msg) ∈ logSettingsError errors msg.
Proof. apply elem_of_app. right. by left. Qed.

Lemma elem_of_log_earlier errors msg line :
  line ∈ errors → line ∈ logSettingsError errors msg.
Proof. intros ?. apply elem_of_app. by left. Qed.

(** A control of a kind outside "control", "get", "custom". *)
Lemma check_control_invalid_type sn j c :
  index_missing validTypes (c_type c) = true →
  ("settings error: " ++ "invalid type " ++ prop_str (c_type c) ++ " for setting "
     ++ pretty j ++ " in setting " ++ prop_str sn) ∈ check_control sn j c [].
Proof.
  intros Hbad.
  assert (c_type c ≠ Some "control" ∧ c_type c ≠ Some "get" ∧ c_type c ≠ Some "custom")
    as (H1 & H2 & H3).
  { destruct (c_type c) as [t|]; [|done]. simpl in Hbad.
    apply bool_decide_eq_true in Hbad.
    split_and!; intros [= ->]; apply Hbad; unfold validTypes;
      repeat first [by left | right]. }
  unfold check_control. rewrite Hbad.
  rewrite !bool_decide_eq_false_2 by done.
  repeat case_match; repeat first [apply elem_of_log | apply elem_of_log_earlier].
Qed.

(** A "get" control without the name of its parameter. *)
Lemma check_control_get_unnamed sn j c :
  c_type c = Some "get" →
  prop_missing_or_empty (c_name c) = true →
  ("settings error: " ++ "Name of get-parameter for control " ++ pretty j
     ++ " in setting " ++ prop_str sn ++ " not given") ∈ check_control sn j c [].
Proof.
  intros Htype Hname. unfold check_control. rewrite Htype, Hname.
  rewrite (bool_decide_eq_false_2 (Some "get" = Some "control")) by done.
  rewrite bool_decide_eq_true_2 by done.
  apply elem_of_log.
Qed.

(** A setting without a name. *)
Lemma check_setting_unnamed i s :
  prop_missing_or_empty (name s) = true →
  ("settings error: " ++ "name of setting " ++ pretty i ++ " not given")
    ∈ check_setting i s [].
Proof.
  intros Hname. unfold check_setting. rewrite Hname. simpl.
  destruct (controls s) as [cs|].
  - rewrite check_controls_app. apply elem_of_app. left. apply elem_of_log.
  - apply elem_of_log_earlier, elem_of_log.
Qed.

Lemma check_setting_control i s cs line :
  controls s = Some cs →
  line ∈ check_controls (name s) 0 cs [] →
  line ∈ check_setting i s [].
Proof.
  intros Hcs Hline. unfold check_setting. rewrite Hcs.
  rewrite check_controls_app. apply elem_of_app. by right.
Qed.

(** *** The four defects and their count *)

Lemma defect_logged st msg :
  defect st msg → ("settings error: " ++ msg) ∈ collected_errors st.
Proof.
  rewrite collected_errors_split.
  intros [sc Hin Hbad|i s Hi Hname|i s cs j c Hi Hcs Hj Hkind|i s cs j c Hi Hcs Hj Htype Hname];
    apply elem_of_app.
  - left. by apply elem_of_check_ignored.
  - right. apply (elem_of_check_settings 0 _ i s); [done|].
    by apply check_setting_unnamed.
  - right. apply (elem_of_check_settings 0 _ i s); [done|].
    apply (check_setting_control _ _ cs); [done|].
    apply (elem_of_check_controls _ 0 _ j c); [done|].
    by apply check_control_invalid_type.
  - right. apply (elem_of_check_settings 0 _ i s); [done|].
    apply (check_setting_control _ _ cs); [done|].
    apply (elem_of_check_controls _ 0 _ j c); [done|].
    by apply check_control_get_unnamed.
Qed.

Lemma check_control_length sn j c :
  (control_defects c ≤ length (check_control sn j c []))%nat.
Proof.
  unfold control_defects, check_control, logSettingsError.
  repeat case_match; simpl; rewrite ?length_app; simpl; try lia;
    exfalso;
    repeat match goal with
           | H : _ && _ = true |- _ => apply andb_true_iff in H as [? ?]
           | H : bool_decide _ = true |- _ => apply bool_decide_eq_true in H
           | H : bool_decide _ = false |- _ => apply bool_decide_eq_false in H
           end; congruence.
Qed.

Lemma check_controls_length sn j cs :
  (sum_list (control_defects <$> cs) ≤ length (check_controls sn j cs []))%nat.
Proof.
  revert j. induction cs as [|c cs IH]; intros j; [simpl; lia|].
  rewrite check_controls_cons, length_app, fmap_cons. simpl.
  pose proof (check_control_length sn j c). specialize (IH (S j)). lia.
Qed.

Lemma check_setting_length i s :
  (setting_defects s ≤ length (check_setting i s []))%nat.
Proof.
  unfold setting_defects, check_setting, logSettingsError.
  destruct (prop_missing_or_empty (name s)), (controls s) as [cs|]; simpl;
    rewrite ?length_app; simpl; try lia.
  - rewrite check_controls_app, length_app. simpl.
    pose proof (check_controls_length (name s) 0 cs). lia.
  - apply check_controls_length.
Qed.

Lemma check_settings_length i ss :
  (sum_list (setting_defects <$> ss) ≤ length (check_settings i ss []))%nat.
Proof.
  revert i. induction ss as [|s ss IH]; intros i; [simpl; lia|].
  rewrite check_settings_cons, length_app, fmap_cons. simpl.
  pose proof (check_setting_length i s). specialize (IH (S i)). lia.
Qed.

Lemma check_ignored_length ign :
  length (filter (λ sc, sc ∉ scopes) ign) = length (check_ignored ign []).
Proof.
  induction ign as [|sc ign IH]; [done|].
  cbn [check_ignored]. rewrite check_ignored_app, length_app.
  destruct (decide (sc ∉ scopes)) as [Hbad|Hok].
  - rewrite filter_cons_True, bool_decide_eq_true_2 by done.
    unfold logSettingsError. simpl. lia.
  - rewrite filter_cons_False, bool_decide_eq_false_2 by done. simpl. lia.
Qed.

Lemma count_defects_logged st :
  (count_defects st ≤ length (collected_errors st))%nat.
Proof.
  rewrite collected_errors_split, length_app. unfold count_defects.
  rewrite check_ignored_length.
  pose proof (check_settings_length 0 (settings st)). lia.
Qed.

Lemma checkSettingsArray_cases st :
  checkSettingsArray st =
    if bool_decide (collected_errors st ≠ [])
    then Throw (Thrown "Errors occurred when checking the setting-definitions. Check the log.")
           (printed st)
    else Ret tt (printed st).
Proof.
  unfold checkSettingsArray.
  by rewrite (array_ne_zero_prefixed _ (collected_errors_prefixed st)).
Qed.

(** C4. Each of the four defects (a "get" control with no parameter name, a
    control of unknown kind, a setting with no name, an ignored scope that
    is not a scope) puts its own line in the collected errors, which are at
    least as many as the defects; every collected line starts with
    "settings error: " and is printed; and the validator throws exactly when
    a line was collected, so it throws on every such defect. *)
Theorem checkSettingsArray_rejects st :
  (∀ msg, defect st msg →
     ("settings error: " ++ msg) ∈ collected_errors st ∧
     checkSettingsArray st =
       Throw (Thrown "Errors occurred when checking the setting-definitions. Check the log.")
         (printed st)) ∧
  (count_defects st ≤ length (collected_errors st))%nat ∧
  Forall prefixed (collected_errors st) ∧
  console (outside (final (checkSettingsArray st))) =
    (console (outside st) ++ collected_errors st)%list ∧
  ((∃ e st', checkSettingsArray st = Throw e st') ↔ collected_errors st ≠ []) ∧
  (checkSettingsArray st = Ret tt (printed st) ↔ collected_errors st = []).
Proof.
  rewrite checkSettingsArray_cases. split_and!.
  - intros msg Hdefect. pose proof (defect_logged st msg Hdefect) as Hin.
    split; [done|]. rewrite bool_decide_eq_true_2; [done|].
    intros Hnil. rewrite Hnil in Hin. by apply elem_of_nil in Hin.
  - apply count_defects_logged.
  - apply collected_errors_prefixed.
  - by case_bool_decide.
  - case_bool_decide as Hne; split.
    + done.
    + intros _. by eexists _, _.
    + by intros (? & ? & ?).
    + done.
  - case_bool_decide as Hne; split.
    + done.
    + intros Hnil. by rewrite Hnil in Hne.
    + intros _. by destruct (decide (collected_errors st = [])).
    + done.
Qed.

End Validator.

(** What the validator collects on [broken_state]. *)
Example broken_state_errors :
  collected_errors broken_state =
    ["settings error: ignored scope session does not exist.";
     "settings error: name of setting 0 not given";
     "settings error: Name of get-parameter for control 0 in setting undefined not given";
     "settings error: invalid type slider for setting 1 in setting undefined";
     "settings error: controls of setting x not given"].
Proof. vm_compute. reflexivity. Qed.

(** The control of kind "slider" is reported, and validation throws. *)
Lemma checkSettingsArray_rejects_witness :
  "settings error: invalid type slider for setting 1 in setting undefined"
    ∈ collected_errors broken_state ∧
  checkSettingsArray broken_state =
    Throw (Thrown "Errors occurred when checking the setting-definitions. Check the log.")
      (printed broken_state).
Proof.
  destruct (checkSettingsArray_rejects broken_state) as (Hdefect & _).
  apply (Hdefect "invalid type slider for setting 1 in setting undefined").
  apply (kind_unknown broken_state 0 broken_setting [unnamed_get; slider] 1 slider).
  - reflexivity.
  - reflexivity.
  - reflexivity.
  - vm_compute. reflexivity.
Defined.

(** ** The loader *)

(** *** How the registry may change while the module runs *)

Lemma bind_Ret {A B} (m : M A) (k : A → M B) st b st' :
  bind m k st = Ret b st' → ∃ a st1, m st = Ret a st1 ∧ k a st1 = Ret b st'.
Proof. unfold bind. destruct (m st) as [a st1|]; [|done]. eauto. Qed.

Section Evolution.

(** A property of values maps that the calls under study keep. *)
Variable φ : gmap string value → Prop.

Lemma keeps_refl s : keeps φ s s.
Proof. by split. Qed.

Lemma keeps_trans s1 s2 s3 : keeps φ s1 s2 → keeps φ s2 s3 → keeps φ s1 s3.
Proof.
  intros [(? & ? & ? & ?) ?] [(? & ? & ? & ?) ?].
  split; [|auto]. split_and!; congruence.
Qed.

Lemma evolves_refl st : evolves φ st st.
Proof. split_and!; [done| |done]. intros i s ?. exists s. split; [done|apply keeps_refl]. Qed.

Lemma evolves_trans st1 st2 st3 : evolves φ st1 st2 → evolves φ st2 st3 → evolves φ st1 st3.
Proof.
  intros (Hlen1 & Hk1 & Hign1) (Hlen2 & Hk2 & Hign2).
  split_and!; [congruence| |congruence].
  intros i s Hi. destruct (Hk1 i s Hi) as (s2 & Hi2 & ?).
  destruct (Hk2 i s2 Hi2) as (s3 & Hi3 & ?).
  exists s3. split; [done|]. by eapply keeps_trans.
Qed.

Lemma evolves_core st st' : core st' = core st → evolves φ st st'.
Proof.
  unfold core. intros [= Hs Hi _]. unfold evolves. rewrite Hs, Hi.
  split_and!; [done| |done]. intros i s ?. exists s. split; [done|apply keeps_refl].
Qed.

Section Steps.

Variable P : state → Prop.
Hypothesis P_evolves : ∀ st st', P st → evolves φ st st' → P st'.

Lemma steps_outside_only {A} (m : M A) : outside_only m → steps_on φ P m.
Proof. intros Hm st _. apply evolves_core, Hm. Qed.

Lemma steps_bind {A B} (m : M A) (k : A → M B) :
  steps_on φ P m → (∀ a, steps_on φ P (k a)) → steps_on φ P (bind m k).
Proof.
  intros Hm Hk st HP. unfold bind. specialize (Hm st HP).
  destruct (m st) as [a st1|e st1]; simpl in *; [|done].
  eapply evolves_trans; [done|]. apply Hk. by eapply P_evolves.
Qed.

Lemma steps_for_each {A} (body : nat → A → M unit) xs j0 :
  (∀ j x, x ∈ xs → steps_on φ P (body j x)) → steps_on φ P (for_each j0 xs body).
Proof.
  revert j0. induction xs as [|x xs IH]; intros j0 Hbody; simpl.
  - apply steps_outside_only, outside_only_ret.
  - apply steps_bind; [apply Hbody; by left|].
    intros _. apply IH. intros j y ?. apply Hbody. by right.
Qed.

Lemma steps_for_range (body : nat → M unit) lo n :
  (∀ i, steps_on φ P (body i)) → steps_on φ P (for_range lo n body).
Proof.
  intros Hbody. revert lo. induction n as [|n IH]; intros lo; simpl.
  - apply steps_outside_only, outside_only_ret.
  - apply steps_bind; auto.
Qed.

End Steps.

(** Assigning a whole values map that has the property. *)
Lemma store_val_evolves i m0 st :
  φ m0 → evolves φ st (final (store_val i m0 st)).
Proof.
  intros Hm0. unfold store_val.
  destruct (settings st !! i) as [s|] eqn:Hi; simpl; [|apply evolves_refl].
  split_and!; simpl; [apply length_insert| |done].
  intros j s' Hj. destruct (decide (i = j)) as [<-|Hne].
  - rewrite list_lookup_insert_eq by (by eapply lookup_lt_Some).
    eexists. split; [done|]. rewrite Hi in Hj. injection Hj as <-.
    split; [done|]. intros _. by exists m0.
  - rewrite list_lookup_insert_ne by done. exists s'. split; [done|apply keeps_refl].
Qed.

(** Writing one scope, when the write keeps the property. *)
Lemma write_val_evolves i scope v st :
  (∀ m, φ m → φ (<[scope := v]> m)) →
  evolves φ st (final (write_val i scope v st)).
Proof.
  intros Hins. unfold write_val, store_val.
  destruct (settings st !! i) as [s|] eqn:Hi; simpl; [|apply evolves_refl].
  destruct (val s) as [m|] eqn:Hval; simpl; [|apply evolves_refl].
  split_and!; simpl; [apply length_insert| |done].
  intros j s' Hj. destruct (decide (i = j)) as [<-|Hne].
  - rewrite list_lookup_insert_eq by (by eapply lookup_lt_Some).
    eexists. split; [done|]. rewrite Hi in Hj. injection Hj as <-.
    split; [done|]. intros (m' & Hm' & Hφ). rewrite Hval in Hm'. injection Hm' as <-.
    eexists. split; [done|]. by apply Hins.
  - rewrite list_lookup_insert_ne by done. exists s'. split; [done|apply keeps_refl].
Qed.

End Evolution.

Section Loader.

Variable urlVars : string → value.
Variable host_call : nat → setting → value → world → (exn + value) * world.

(** *** What one "get" control records *)

Lemma seed_control_get i c st :
  c_type c = Some "get" →
  seed_control urlVars host_call i c st =
    let paramValue := coerce_param (urlVars (prop_str (c_name c))) in
    if truthy paramValue then write_val i (prop_str (c_scope c)) paramValue st
    else Ret tt st.
Proof.
  intros Htype. unfold seed_control. rewrite Htype.
  rewrite bool_decide_eq_true_2 by done. simpl. by case_match.
Qed.

(** The word "true" is recorded as the boolean. *)
Lemma seed_control_get_true i c st :
  c_type c = Some "get" →
  urlVars (prop_str (c_name c)) = VStr "true" →
  seed_control urlVars host_call i c st = write_val i (prop_str (c_scope c)) (VBool true) st.
Proof. intros Htype Hparam. by rewrite seed_control_get, Hparam. Qed.

(** Any other non-empty string is recorded as it is. *)
Lemma seed_control_get_string i c st text :
  c_type c = Some "get" →
  urlVars (prop_str (c_name c)) = VStr text →
  text ≠ "" → text ≠ "true" → text ≠ "false" →
  seed_control urlVars host_call i c st = write_val i (prop_str (c_scope c)) (VStr text) st.
Proof.
  intros Htype Hparam Hne Ht Hf. rewrite seed_control_get, Hparam by done.
  unfold coerce_param. simpl.
  rewrite (proj2 (String.eqb_neq _ _) Ht), (proj2 (String.eqb_neq _ _) Hf). simpl.
  by rewrite (proj2 (String.eqb_neq _ _) Hne).
Qed.

(** A parameter that is absent or empty records nothing. *)
Lemma seed_control_get_absent i c st :
  c_type c = Some "get" →
  urlVars (prop_str (c_name c)) = VUndefined ∨ urlVars (prop_str (c_name c)) = VStr "" →
  seed_control urlVars host_call i c st = Ret tt st.
Proof. intros Htype [Hparam|Hparam]; by rewrite seed_control_get, Hparam. Qed.

(** The word "false" becomes the boolean false, which the test
    [if(paramValue)] then takes for an absent parameter: nothing is
    recorded. *)
Lemma seed_control_get_false i c st :
  c_type c = Some "get" →
  urlVars (prop_str (c_name c)) = VStr "false" →
  coerce_param (urlVars (prop_str (c_name c))) = VBool false ∧
  seed_control urlVars host_call i c st = Ret tt st.
Proof. intros Htype Hparam. by rewrite seed_control_get, Hparam. Qed.

(** *** The registry through the first loop *)

Section LoaderInvariant.

Variable φ : gmap string value → Prop.
Hypothesis φ_insert_defined :
  ∀ m sc v, is_defined v = true → φ m → φ (<[sc := v]> m).

Lemma always_evolves st st' : always st → evolves φ st st' → always st'.
Proof. done. Qed.

Lemma static_ok_evolves st st' :
  Forall (static_ok φ) (settings st) → evolves φ st st' → Forall (static_ok φ) (settings st').
Proof.
  intros Hok (Hlen & Hk & _). apply Forall_lookup. intros i s' Hi'.
  destruct (lookup_lt_is_Some_2 (settings st) i) as [s Hi].
  { rewrite <- Hlen. by eapply lookup_lt_Some. }
  destruct (Hk i s Hi) as (s'' & Hi'' & (_ & Hd & _ & Hc) & _).
  assert (s'' = s') as -> by congruence.
  destruct (Forall_lookup_1 _ _ _ _ Hok Hi) as [Hdef Hcs].
  split; [by rewrite Hd|]. intros cs c. rewrite Hc. apply Hcs.
Qed.

Lemma setValue_evolves nm scope v st :
  (∀ m, φ m → φ (<[scope := v]> m)) →
  evolves φ st (final (setValue host_call nm scope v st)).
Proof.
  intros Hins. destruct (decide (scope ∈ scopes)) as [Hin|Hnot].
  - rewrite setValue_recognised by done.
    destruct (getSetting st nm) as [[i s]|]; [|apply evolves_refl].
    apply (steps_bind φ always always_evolves); [| |done].
    + intros st0 _. by apply write_val_evolves.
    + intros _. apply steps_outside_only, outside_only_after_write.
  - unfold setValue. rewrite bool_decide_eq_true_2 by done. apply evolves_refl.
Qed.

Lemma seed_control_evolves i c st :
  seed_ok φ c → evolves φ st (final (seed_control urlVars host_call i c st)).
Proof.
  intros Hc. unfold seed_control. case_bool_decide as Hget.
  - destruct (truthy (coerce_param _)) eqn:Htruthy; [|apply evolves_refl].
    apply write_val_evolves. intros m. apply φ_insert_defined.
    by destruct (coerce_param _).
  - case_bool_decide as Hcustom; [|apply evolves_refl].
    apply (steps_bind φ always always_evolves); [| |done].
    + apply steps_outside_only, outside_only_read_setting.
    + intros s. apply (steps_bind φ always always_evolves).
      * apply steps_outside_only, outside_only_call_value.
      * intros r st0 _. apply write_val_evolves. intros m. by apply Hc.
Qed.

Lemma commit_scope_evolves i scope st :
  evolves φ st (final (commit_scope host_call i scope st)).
Proof.
  apply (steps_bind φ always always_evolves); [| |done].
  - apply steps_outside_only, outside_only_read_setting.
  - intros s. destruct (val s) as [m|]; [|intros ??; apply evolves_refl].
    destruct (is_defined (val_read m scope)) eqn:Hdef; [|intros ??; apply evolves_refl].
    intros st0 _. apply setValue_evolves. intros m'. by apply φ_insert_defined.
Qed.

Lemma load_rest_evolves i s st :
  static_ok φ s → evolves φ st (final (load_rest urlVars host_call i s st)).
Proof.
  intros [_ Hcs]. apply (steps_bind φ always always_evolves); [| |done].
  - destruct (controls s) as [cs|]; [|intros ??; apply evolves_refl].
    apply (steps_for_each φ always always_evolves).
    intros j c Hc st0 _. apply seed_control_evolves. by eapply Hcs.
  - intros _. apply (steps_for_each φ always always_evolves).
    intros j scope _ st0 _. apply commit_scope_evolves.
Qed.

Lemma load_setting_unfold i s st :
  settings st !! i = Some s →
  load_setting urlVars host_call i st = load_rest urlVars host_call i s (fresh_val i s st).
Proof.
  intros Hi. unfold load_setting, load_rest.
  unfold bind at 1, read_setting. rewrite Hi.
  unfold bind at 1, store_val. by rewrite Hi.
Qed.

Lemma load_setting_evolves i st :
  Forall (static_ok φ) (settings st) →
  evolves φ st (final (load_setting urlVars host_call i st)).
Proof.
  intros Hok. destruct (settings st !! i) as [s|] eqn:Hi.
  - rewrite (load_setting_unfold i s st Hi).
    pose proof (Forall_lookup_1 _ _ _ _ Hok Hi) as Hs.
    eapply evolves_trans; [|by apply load_rest_evolves].
    pose proof (store_val_evolves φ i {["local" := defaultValue s]} st (proj1 Hs)) as Hstore.
    unfold store_val in Hstore. by rewrite Hi in Hstore.
  - unfold load_setting, bind, read_setting. rewrite Hi. apply evolves_refl.
Qed.

(** Entry [i] comes out of its turn with a values map that has the
    property. *)
Lemma load_setting_good i st st' :
  Forall (static_ok φ) (settings st) →
  load_setting urlVars host_call i st = Ret tt st' →
  ∃ s', settings st' !! i = Some s' ∧ good φ s'.
Proof.
  intros Hok Hload. destruct (settings st !! i) as [s|] eqn:Hi.
  - rewrite (load_setting_unfold i s st Hi) in Hload.
    pose proof (Forall_lookup_1 _ _ _ _ Hok Hi) as Hs.
    pose proof (load_rest_evolves i s (fresh_val i s st) Hs) as (_ & Hk & _).
    rewrite Hload in Hk. simpl in Hk.
    destruct (Hk i (with_val s {["local" := defaultValue s]})) as (s' & Hi' & _ & Hgood).
    { apply list_lookup_insert_eq. by eapply lookup_lt_Some. }
    exists s'. split; [done|]. apply Hgood. eexists. split; [done|]. apply Hs.
  - unfold load_setting, bind, read_setting in Hload. by rewrite Hi in Hload.
Qed.

Lemma first_loop_evolves lo n st :
  Forall (static_ok φ) (settings st) →
  evolves φ st (final (for_range lo n (load_setting urlVars host_call) st)).
Proof.
  apply (steps_for_range φ (λ st, Forall (static_ok φ) (settings st)) static_ok_evolves).
  intros i st0. apply load_setting_evolves.
Qed.

Lemma first_loop_good n : ∀ lo st st',
  Forall (static_ok φ) (settings st) →
  for_range lo n (load_setting urlVars host_call) st = Ret tt st' →
  ∀ j, lo ≤ j < lo + n → ∃ s', settings st' !! j = Some s' ∧ good φ s'.
Proof.
  induction n as [|n IH]; intros lo st st' Hok Hloop j Hj; [lia|].
  simpl in Hloop. apply bind_Ret in Hloop as ([] & st1 & Hbody & Hrest).
  pose proof (load_setting_evolves lo st Hok) as Hev. rewrite Hbody in Hev. simpl in Hev.
  pose proof (static_ok_evolves _ _ Hok Hev) as Hok1.
  destruct (decide (j = lo)) as [->|Hne].
  - destruct (load_setting_good lo st st1 Hok Hbody) as (s1 & Hs1 & Hgood1).
    pose proof (first_loop_evolves (S lo) n st1 Hok1) as (_ & Hk & _).
    rewrite Hrest in Hk. simpl in Hk.
    destruct (Hk lo s1 Hs1) as (s' & Hs' & _ & Hgood). eauto.
  - apply (IH (S lo) st1 st' Hok1 Hrest). lia.
Qed.

(** After [loadSettings] returns: every entry has a values map with the
    property, the static fields and the ignored scopes are as before, and
    the module is loaded. *)
Lemma loadSettings_good st st' :
  Forall (static_ok φ) (settings st) →
  loadSettings urlVars host_call st = Ret tt st' →
  Forall (good φ) (settings st') ∧
  evolves φ st st' ∧
  loaded st' = true.
Proof.
  intros Hok Hload. unfold loadSettings in Hload.
  apply bind_Ret in Hload as ([] & st1 & Hcheck & Hload).
  apply bind_Ret in Hload as (st1' & st1'' & Hget & Hload).
  unfold get_state in Hget. injection Hget as <- <-.
  apply bind_Ret in Hload as ([] & st2 & Hloop1 & Hload).
  apply bind_Ret in Hload as ([] & st3 & Hloop2 & Hload).
  apply bind_Ret in Hload as ([] & st4 & Hset & Hsave).
  assert (core st1 = core st) as Hcore1.
  { rewrite checkSettingsArray_cases in Hcheck. case_bool_decide; [done|].
    by injection Hcheck as <-. }
  assert (core st3 = core st2) as Hcore3.
  { assert (outside_only (for_range 0 (length (settings st1))
              (λ i, let* s := read_setting i in notify host_call i (name s)))) as Hframe.
    { apply outside_only_for_range. intros i.
      apply outside_only_bind; [apply outside_only_read_setting|].
      intros s. apply outside_only_notify. }
    specialize (Hframe st2). by rewrite Hloop2 in Hframe. }
  assert (settings st4 = settings st3 ∧ ignoredScopes st4 = ignoredScopes st3
          ∧ loaded st4 = true) as (Hs4 & Hi4 & Hl4).
  { unfold set_loaded in Hset. by injection Hset as <-. }
  pose proof (outside_only_saveToCookie st4) as Hcore5. rewrite Hsave in Hcore5.
  simpl in Hcore5. unfold core in *.
  injection Hcore1 as Hs1 Hi1 _. injection Hcore3 as Hs3 Hi3 _.
  injection Hcore5 as Hs5 Hi5 Hl5.
  assert (Forall (static_ok φ) (settings st1)) as Hok1 by (by rewrite Hs1).
  pose proof (first_loop_evolves 0 (length (settings st1)) st1 Hok1) as Hev.
  rewrite Hloop1 in Hev. simpl in Hev.
  assert (evolves φ st st') as Hev'.
  { destruct Hev as (Hlen & Hk & Hign). unfold evolves.
    rewrite Hs5, Hs4, Hs3, Hi5, Hi4, Hi3, <- Hs1, <- Hi1. done. }
  split_and!; [|done|congruence].
  rewrite Hs5, Hs4, Hs3. apply Forall_lookup. intros j s' Hj.
  destruct (first_loop_good _ 0 st1 st2 Hok1 Hloop1 j) as (s'' & Hj' & Hgood).
  { destruct Hev as (Hlen & _). rewrite <- Hlen.
    apply lookup_lt_Some in Hj. lia. }
  congruence.
Qed.

End LoaderInvariant.

(** *** After the load *)


(** *** The "local" entry *)

Lemma local_defined_insert m sc v :
  is_defined v = true → local_defined m → local_defined (<[sc := v]> m).
Proof.
  unfold local_defined, val_read. intros Hv Hm.
  destruct (decide (sc = "local")) as [->|Hne].
  - by rewrite lookup_insert_eq.
  - by rewrite lookup_insert_ne.
Qed.

Lemma local_defined_insert_other m sc v :
  sc ≠ "local" → local_defined m → local_defined (<[sc := v]> m).
Proof. unfold local_defined, val_read. intros Hne Hm. by rewrite lookup_insert_ne. Qed.

Lemma evolves_good φ st st' :
  evolves φ st st' → Forall (good φ) (settings st) → Forall (good φ) (settings st').
Proof.
  intros (Hlen & Hk & _) Hgood. apply Forall_lookup. intros i s' Hi'.
  destruct (lookup_lt_is_Some_2 (settings st) i) as [s Hi].
  { rewrite <- Hlen. by eapply lookup_lt_Some. }
  destruct (Hk i s Hi) as (s'' & Hi'' & _ & Hkeep).
  assert (s'' = s') as -> by congruence.
  apply Hkeep. by eapply Forall_lookup_1.
Qed.

(** C9. After [loadSettings] returns, on a registry whose entries all give
    a default value, every values map has a defined "local" entry; a
    [setValue] that does not write undefined to "local", and any
    [setIgnoreScope], keep it so; and as long as it is so and "local" is not
    ignored, [getValue(name)] is the "local" entry, whatever "global" and
    "get" hold. *)
Theorem local_entry_always_wins :
  (∀ st st',
     defaults_given (settings st) →
     loadSettings urlVars host_call st = Ret tt st' →
     local_entries_defined st') ∧
  (∀ st nm scope v,
     local_entries_defined st →
     (scope = "local" → v ≠ VUndefined) →
     local_entries_defined (final (setValue host_call nm scope v st))) ∧
  (∀ st scope ignore,
     local_entries_defined st →
     local_entries_defined (final (setIgnoreScope scope ignore st))) ∧
  (∀ st nm i s,
     local_entries_defined st →
     "local" ∉ ignoredScopes st →
     getSetting st nm = Some (i, s) →
     ∃ m, val s = Some m ∧ is_defined (val_read m "local") = true ∧
          getValue st nm = inr (val_read m "local")).
Proof.
  split_and!.
  - intros st st' Hdefaults Hload.
    destruct (loadSettings_good local_defined local_defined_insert st st') as (Hgood & _ & _);
      [|done|done].
    apply Forall_forall. intros s Hs. destruct (Hdefaults s Hs) as [Hd Hcs]. split.
    + unfold local_defined, val_read. rewrite lookup_singleton_eq. simpl.
      by destruct (defaultValue s).
    + intros cs c Hcontrols Hc Hcustom m v. apply local_defined_insert_other.
      specialize (Hcs cs c Hcontrols Hc Hcustom).
      destruct (c_scope c) as [sc|]; simpl; [congruence|done].
  - intros st nm scope v Hgood Hv.
    eapply evolves_good; [|done]. apply setValue_evolves. intros m.
    destruct (decide (scope = "local")) as [->|Hne].
    + apply local_defined_insert. specialize (Hv eq_refl). by destruct v.
    + by apply local_defined_insert_other.
  - intros st scope ignore Hgood. unfold local_entries_defined, setIgnoreScope.
    repeat case_match; done.
  - intros st nm i s Hgood Hlocal Hget.
    pose proof (getSetting_lookup _ _ _ _ Hget) as [Hi _].
    destruct (Forall_lookup_1 _ _ _ _ Hgood Hi) as (m & Hval & Hdef).
    exists m. split_and!; [done|done|].
    unfold getValue. rewrite Hget.
    apply (getValue_scan_first _ i s m [] "local" ["global"; "get"]); [done..|].
    intros sc' Hsc'. by apply elem_of_nil in Hsc'.
Qed.

End Loader.

(** ** The module on the table of the source *)

(** The table of the source passes its own validation. *)
Example settings_table_valid :
  collected_errors (initial_state settings_table page_dom) = [].
Proof. vm_compute. reflexivity. Qed.

(** On a page without widgets the load stops at the first bound widget,
    "options-ignore-global", after the values of "ignoreGlobal" are set. *)
Example load_without_widgets :
  ∃ st,
    loadSettings bob_query (table_call bob_query) (initial_state settings_table ∅)
      = Throw (TypeError "control.prop(...) is undefined") st ∧
    loaded st = false ∧
    getValue st (Some "ignoreGlobal") = inr (VBool false) ∧
    getValue st (Some "showAuthorColors") = inl (TypeError "setting.val is undefined").
Proof. eexists. split_and!; vm_compute; reflexivity. Qed.

(** The load returns on the page that has every widget. *)
Lemma loaded_page_returns :
  loadSettings bob_query (table_call bob_query) (initial_state settings_table page_dom)
    = Ret tt loaded_page.
Proof. vm_compute. reflexivity. Defined.



(** The table of the source gives every default value and computes only
    for "get". *)
Lemma settings_table_defaults_given : defaults_given settings_table.
Proof.
  intros s Hs. unfold settings_table in Hs.
  repeat (apply elem_of_cons in Hs as [->|Hs]); [..|by apply elem_of_nil in Hs].
  all: split; [discriminate|].
  all: intros cs c [= <-] Hc.
  all: repeat (apply elem_of_cons in Hc as [->|Hc]); try discriminate.
  all: by apply elem_of_nil in Hc.
Defined.

(** With "?rtl=true" the "get" entry of "rtl" is true and the effective
    value is still the "local" default. *)
Lemma local_entry_always_wins_witness :
  local_entries_defined loaded_page ∧
  ∃ s m, getSetting loaded_page (Some "rtl") = Some (4, s) ∧ val s = Some m ∧
         val_read m "get" = VBool true ∧
         getValue loaded_page (Some "rtl") = inr (val_read m "local").
Proof.
  destruct (local_entry_always_wins bob_query (table_call bob_query))
    as (Hload & _ & _ & Hwins).
  assert (local_entries_defined loaded_page) as Hdefined.
  { apply (Hload (initial_state settings_table page_dom) loaded_page).
    - exact settings_table_defaults_given.
    - exact loaded_page_returns. }
  split; [exact Hdefined|].
  destruct (getSetting loaded_page (Some "rtl")) as [[i s]|] eqn:Hget;
    [|vm_compute in Hget; discriminate].
  destruct (Hwins loaded_page (Some "rtl") i s Hdefined) as (m & Hval & _ & Hv).
  - by_evaluation.
  - exact Hget.
  - assert (i = 4) as -> by (vm_compute in Hget; by injection Hget).
    exists s, m. split; [reflexivity|]. split; [exact Hval|]. split; [|exact Hv].
    vm_compute in Hget. injection Hget as <-.
    vm_compute in Hval. injection Hval as <-. vm_compute. reflexivity.
Defined.

(** With "?flag=true" the boolean true, not the string, is recorded under
    "get"; the effective value is still the default of "local". *)
Example flag_true_recorded :
  ∃ s m, settings (flag_page "true") = [s] ∧ val s = Some m ∧
         m !! "get" = Some (VBool true) ∧
         getValue (flag_page "true") (Some "flag") = inr (VBool false).
Proof. eexists _, _. split_and!; vm_compute; reflexivity. Qed.

(** C2. On the table of the source with "?showLineNumbers=false": the word
    is turned into the boolean false, the load returns, and nothing is
    recorded under "get" for "showLineNumbers", where the specification has
    the boolean false recorded. *)
Theorem false_parameter_not_recorded :
  coerce_param (no_line_numbers "showLineNumbers") = VBool false ∧
  ∃ s m,
    loadSettings no_line_numbers (table_call no_line_numbers)
      (initial_state settings_table page_dom) = Ret tt no_line_numbers_page ∧
    getSetting no_line_numbers_page (Some "showLineNumbers") = Some (7, s) ∧
    val s = Some m ∧
    m !! "get" = None ∧
    (m !! "get") ≠ Some (VBool false).
Proof.
  split; [vm_compute; reflexivity|].
  eexists _, _. split_and!; try (vm_compute; reflexivity).
  vm_compute. discriminate.
Qed.

(** * Further properties of the module *)

(** ** The validator accepts exactly the well-formed registries *)

Section ValidatorComplete.

Implicit Types (errors : list string) (c : control) (s : setting).

Lemma index_missing_false l p :
  index_missing l p = false ↔ ∃ x, p = Some x ∧ x ∈ l.
Proof.
  destruct p as [x|]; simpl.
  - rewrite bool_decide_eq_false. split.
    + intros Hin. exists x. split; [done|]. by destruct (decide (x ∈ l)).
    + intros (y & [= <-] & Hin) Hnot. done.
  - split; [done|]. by intros (? & ? & _).
Qed.

Lemma prop_falsy_valid_type t : t ∈ validTypes → prop_falsy (Some t) = false.
Proof.
  unfold validTypes.
  intros [->|[->|[->|[]%elem_of_nil]%elem_of_cons]%elem_of_cons]%elem_of_cons; done.
Qed.

Lemma prop_falsy_scope sc : sc ∈ scopes → prop_falsy (Some sc) = false.
Proof.
  unfold scopes.
  intros [->|[->|[->|[]%elem_of_nil]%elem_of_cons]%elem_of_cons]%elem_of_cons; done.
Qed.

Lemma check_control_nil sn j c :
  check_control sn j c [] = [] ↔ control_ok c.
Proof.
  split.
  - unfold check_control, logSettingsError.
    destruct (prop_falsy (c_type c)) eqn:Hft; [repeat case_match; simpl; discriminate|].
    destruct (index_missing validTypes (c_type c)) eqn:Hvt;
      [repeat case_match; simpl; discriminate|].
    destruct (prop_falsy (c_scope c)) eqn:Hfs; [repeat case_match; simpl; discriminate|].
    destruct (index_missing scopes (c_scope c)) eqn:Hvs;
      [repeat case_match; simpl; discriminate|].
    apply index_missing_false in Hvt. apply index_missing_false in Hvs.
    intros Hnil. split_and!; [done|done|..].
    + intros Ht. rewrite Ht in Hnil. rewrite bool_decide_eq_true_2 in Hnil by done.
      by destruct (prop_missing_or_empty (c_id c)).
    + intros Ht. rewrite Ht in Hnil.
      rewrite (bool_decide_eq_false_2 (Some "get" = Some "control")) in Hnil by done.
      rewrite bool_decide_eq_true_2 in Hnil by done.
      by destruct (prop_missing_or_empty (c_name c)).
    + intros Ht. rewrite Ht in Hnil.
      rewrite (bool_decide_eq_false_2 (Some "custom" = Some "control")) in Hnil by done.
      rewrite (bool_decide_eq_false_2 (Some "custom" = Some "get")) in Hnil by done.
      rewrite bool_decide_eq_true_2 in Hnil by done.
      destruct (truthy (c_callback c)); [|done].
      by destruct (is_function (c_callback c)).
  - intros ((t & Ht & Hin) & (sc & Hsc & Hscin) & Hid & Hname & Hcb).
    unfold check_control. rewrite Ht, Hsc.
    rewrite (prop_falsy_valid_type t Hin), (prop_falsy_scope sc Hscin).
    rewrite (proj2 (index_missing_false validTypes (Some t))) by eauto.
    rewrite (proj2 (index_missing_false scopes (Some sc))) by eauto.
    rewrite Ht in Hid, Hname, Hcb. unfold validTypes in Hin.
    apply elem_of_cons in Hin as [->|Hin].
    { rewrite bool_decide_eq_true_2 by done. by rewrite Hid. }
    rewrite bool_decide_eq_false_2
      by (intros [= ->]; apply elem_of_cons in Hin as [?|[?|[]%elem_of_nil]%elem_of_cons];
          discriminate).
    apply elem_of_cons in Hin as [->|Hin].
    { rewrite bool_decide_eq_true_2 by done. by rewrite Hname. }
    apply elem_of_cons in Hin as [->|Hin]; [|by apply elem_of_nil in Hin].
    rewrite bool_decide_eq_false_2 by done.
    rewrite bool_decide_eq_true_2 by done.
    specialize (Hcb eq_refl). by destruct (c_callback c).
Qed.

Lemma check_controls_nil sn j cs :
  check_controls sn j cs [] = [] ↔ Forall control_ok cs.
Proof.
  revert j. induction cs as [|c cs IH]; intros j.
  - split; [constructor|done].
  - rewrite check_controls_cons, app_nil, check_control_nil, IH, Forall_cons. done.
Qed.

Lemma check_setting_nil i s :
  check_setting i s [] = [] ↔ setting_ok s.
Proof.
  unfold check_setting, setting_ok, logSettingsError.
  destruct (prop_missing_or_empty (name s)); simpl.
  - split; [|by intros [? _]].
    destruct (controls s) as [cs|]; [|by destruct (pretty i)].
    rewrite check_controls_app. intros [? _]%app_nil. done.
  - destruct (controls s) as [cs|].
    + rewrite check_controls_nil. split; [eauto|]. by intros (_ & ? & [= <-] & ?).
    + split; [done|]. by intros (_ & ? & ? & _).
Qed.

Lemma check_settings_nil i ss :
  check_settings i ss [] = [] ↔ Forall setting_ok ss.
Proof.
  revert i. induction ss as [|s ss IH]; intros i.
  - split; [constructor|done].
  - rewrite check_settings_cons, app_nil, check_setting_nil, IH, Forall_cons. done.
Qed.

Lemma check_ignored_nil ign :
  check_ignored ign [] = [] ↔ Forall (λ sc, sc ∈ scopes) ign.
Proof.
  induction ign as [|sc ign IH].
  - split; [constructor|done].
  - cbn [check_ignored]. rewrite check_ignored_app, app_nil, IH, Forall_cons.
    unfold logSettingsError. case_bool_decide as Hsc; simpl.
    + split; [by intros [? _]|]. by intros [? _].
    + split; [intros [_ ?]; split; [|done]|by intros [_ ?]].
      by destruct (decide (sc ∈ scopes)).
Qed.

Lemma collected_errors_nil st : collected_errors st = [] ↔ registry_ok st.
Proof.
  rewrite collected_errors_split, app_nil, check_ignored_nil, check_settings_nil. done.
Qed.

Lemma printed_nothing st : collected_errors st = [] → printed st = st.
Proof.
  intros Hnil. unfold printed. rewrite Hnil, app_nil_r.
  by destruct st as [? ? ? []].
Qed.

Lemma checkSettingsArray_registry_ok st :
  registry_ok st → checkSettingsArray st = Ret tt st.
Proof.
  intros Hok%collected_errors_nil. rewrite checkSettingsArray_cases.
  rewrite bool_decide_eq_false_2 by (by intros ?). by rewrite printed_nothing.
Qed.

Lemma checkSettingsArray_not_ok st :
  ¬ registry_ok st → checkSettingsArray st = Throw validation_failed (printed st).
Proof.
  intros Hnot. rewrite checkSettingsArray_cases.
  rewrite bool_decide_eq_true_2; [done|]. by rewrite collected_errors_nil.
Qed.

(** X1. [checkSettingsArray] returns, printing nothing and changing
    nothing, exactly on the well-formed registries: ignored scopes that are
    scopes, and settings that each have a non-empty name and controls whose
    kind and scope are recognised and that carry what their kind needs (an
    id, a parameter name, a function).  On any other registry it throws. *)
Theorem checkSettingsArray_accepts_well_formed st :
  (registry_ok st ↔ checkSettingsArray st = Ret tt st) ∧
  (¬ registry_ok st ↔ checkSettingsArray st = Throw validation_failed (printed st)).
Proof.
  split; split.
  - apply checkSettingsArray_registry_ok.
  - intros Hret. apply collected_errors_nil.
    rewrite checkSettingsArray_cases in Hret. by case_bool_decide as Hne.
  - apply checkSettingsArray_not_ok.
  - intros Hthrow Hok. by rewrite checkSettingsArray_registry_ok in Hthrow.
Qed.

End ValidatorComplete.

(** The table of the source is well formed. *)
Lemma checkSettingsArray_accepts_well_formed_witness :
  registry_ok (initial_state settings_table page_dom).
Proof.
  apply (checkSettingsArray_accepts_well_formed (initial_state settings_table page_dom)).
  vm_compute. reflexivity.
Defined.

(** ** Validation comes before everything else in the load *)

Section LoadGate.

Variable urlVars : string → value.
Variable host_call : nat → setting → value → world → (exn + value) * world.

(** X2. On a registry that is not well formed [loadSettings] throws the
    validation error before it assigns anything: settings and their values,
    ignored scopes, the loaded flag, widgets and cookies are as they were,
    and only the error lines were printed. *)
Theorem loadSettings_stops_at_validation st :
  ¬ registry_ok st →
  loadSettings urlVars host_call st = Throw validation_failed (printed st) ∧
  core (printed st) = core st ∧
  dom (outside (printed st)) = dom (outside st) ∧
  cookies (outside (printed st)) = cookies (outside st) ∧
  console (outside (printed st)) = (console (outside st) ++ collected_errors st)%list.
Proof.
  intros Hnot. split; [|done].
  unfold loadSettings, bind. by rewrite checkSettingsArray_not_ok.
Qed.

End LoadGate.

(** The load on [broken_state]. *)
Lemma loadSettings_stops_at_validation_witness :
  loadSettings bob_query (table_call bob_query) broken_state
    = Throw validation_failed (printed broken_state).
Proof.
  apply (loadSettings_stops_at_validation bob_query (table_call bob_query) broken_state).
  intros Hok. apply collected_errors_nil in Hok. vm_compute in Hok. discriminate.
Defined.

(** ** Calls that keep a relation between the states *)

Section Along.

Variable R : state → state → Prop.
Hypothesis R_refl : ∀ st, R st st.
Hypothesis R_trans : ∀ st1 st2 st3, R st1 st2 → R st2 st3 → R st1 st3.
Variable P : state → Prop.
Hypothesis P_R : ∀ st st', P st → R st st' → P st'.

Lemma along_ret {A} (a : A) : along R P (ret a).
Proof. intros st _. apply R_refl. Qed.

Lemma along_throw {A} e : along R P (@throw A e).
Proof. intros st _. apply R_refl. Qed.

Lemma along_get_state : along R P get_state.
Proof. intros st _. apply R_refl. Qed.

Lemma along_read_setting i : along R P (read_setting i).
Proof. intros st _. unfold read_setting. destruct (settings st !! i); apply R_refl. Qed.

Lemma along_lift {A} (f : state → exn + A) : along R P (lift f).
Proof. intros st _. unfold lift. destruct (f st); apply R_refl. Qed.

Lemma along_bind {A B} (m : M A) (k : A → M B) :
  along R P m → (∀ a, along R P (k a)) → along R P (bind m k).
Proof.
  intros Hm Hk st HP. unfold bind. specialize (Hm st HP).
  destruct (m st) as [a st1|e st1]; simpl in *; [|done].
  eapply R_trans; [done|]. apply Hk. by eapply P_R.
Qed.

Lemma along_for_each {A} (body : nat → A → M unit) xs j0 :
  (∀ j x, x ∈ xs → along R P (body j x)) → along R P (for_each j0 xs body).
Proof.
  revert j0. induction xs as [|x xs IH]; intros j0 Hbody; simpl.
  - apply along_ret.
  - apply along_bind; [apply Hbody; by left|].
    intros _. apply IH. intros j y ?. apply Hbody. by right.
Qed.

Lemma along_for_range (body : nat → M unit) lo n :
  (∀ i, along R P (body i)) → along R P (for_range lo n body).
Proof.
  intros Hbody. revert lo. induction n as [|n IH]; intros lo; simpl.
  - apply along_ret.
  - apply along_bind; auto.
Qed.

End Along.

(** ** Pushing a value into the widgets *)

Section Widgets.

Lemma pushes_to_refl ids st : pushes_to ids st st.
Proof. split_and!; try done. intros id el ?. by exists el. Qed.

Lemma pushes_to_trans ids st1 st2 st3 :
  pushes_to ids st1 st2 → pushes_to ids st2 st3 → pushes_to ids st1 st3.
Proof.
  intros (Hc1 & Hl1 & Hk1 & Ho1 & Hn1 & Hs1) (Hc2 & Hl2 & Hk2 & Ho2 & Hn2 & Hs2).
  split_and!; try congruence.
  - intros id Hid. by rewrite Ho2, Ho1.
  - intros id Hid. auto.
  - intros id el Hel. destruct (Hs1 id el Hel) as (el1 & Hel1 & ? & ?).
    destruct (Hs2 id el1 Hel1) as (el2 & Hel2 & ? & ?).
    exists el2. split_and!; congruence.
Qed.

Lemma pushes_to_weaken ids ids' st st' :
  (∀ id, id ∈ ids → id ∈ ids') → pushes_to ids st st' → pushes_to ids' st st'.
Proof.
  intros Hsub (? & ? & ? & Ho & ? & ?). split_and!; try done.
  intros id Hid. apply Ho. intros ?. by apply Hid, Hsub.
Qed.

(** Replacing the held value of the widget [id]. *)
Lemma pushes_to_insert st id el held' :
  dom (outside st) !! id = Some el →
  pushes_to [id]
    st
    (State (settings st) (ignoredScopes st) (loaded st)
       (World (console (outside st))
          (<[id := Element (tagName el) (typeAttr el) held']> (dom (outside st)))
          (cookies (outside st)))).
Proof.
  intros Hel. split_and!; simpl; try done.
  - intros id' Hid'. apply lookup_insert_ne. intros ->. apply Hid'. by left.
  - intros id' Hnone. rewrite lookup_insert_ne; [done|]. intros ->. congruence.
  - intros id' el' Hel'. destruct (decide (id = id')) as [<-|Hne].
    + rewrite lookup_insert_eq. eexists. split; [done|]. simpl.
      split; congruence.
    + rewrite lookup_insert_ne by done. by exists el'.
Qed.

(** [setControlSettingValue] either throws and leaves the state exactly
    as it was, or returns having changed nothing but the value held by the
    one widget that has the control's id, which then shows the value.  It
    returns only when that widget exists and is a check box or a select
    list; a missing widget is a type error, raised before the test of
    [control.length]. *)
Lemma setControlSettingValue_outcome c nm v st :
  (∃ e, setControlSettingValue c nm v st = Throw e st ∧
        (dom (outside st) !! prop_str (c_id c) = None →
         e = TypeError "control.prop(...) is undefined")) ∨
  (∃ st' el el',
     setControlSettingValue c nm v st = Ret tt st' ∧
     dom (outside st) !! prop_str (c_id c) = Some el ∧
     dom (outside st') !! prop_str (c_id c) = Some el' ∧
     shows v el' ∧
     pushes_to [prop_str (c_id c)] st st').
Proof.
  unfold setControlSettingValue, bind, get_state, throw, set_outside.
  destruct (dom (outside st) !! prop_str (c_id c)) as [el|] eqn:Hel.
  - destruct (String.eqb (tagName el) "input") eqn:Hinput.
    + apply String.eqb_eq in Hinput. case_bool_decide as Hbox.
      * right. eexists _, el, _. split; [done|]. split; [done|]. simpl.
        split; [apply lookup_insert_eq|]. split; [by left|].
        by apply pushes_to_insert.
      * left. eexists. split; [done|]. done.
    + destruct (String.eqb (tagName el) "select") eqn:Hselect.
      * apply String.eqb_eq in Hselect.
        right. eexists _, el, _. split; [done|]. split; [done|]. simpl.
        split; [apply lookup_insert_eq|]. split; [by right|].
        by apply pushes_to_insert.
      * left. eexists. split; [done|]. done.
  - left. eexists. split; [done|]. done.
Qed.


End Widgets.


(** ** What [setValue] does to widgets and cookie *)

Section SetValueEffects.

Variable host_call : nat → setting → value → world → (exn + value) * world.

Implicit Types (c : control) (cs : list control) (st : state).

Lemma bound_to_test scope c :
  bool_decide (c_scope c = Some scope) && bool_decide (c_type c = Some "control") = true
  ↔ bound_to scope c.
Proof.
  unfold bound_to. rewrite andb_true_iff, !bool_decide_eq_true. done.
Qed.

Lemma bound_ids_elem scope cs c :
  c ∈ cs → bound_to scope c → prop_str (c_id c) ∈ bound_ids scope cs.
Proof.
  intros Hc Hb. unfold bound_ids. apply list_elem_of_fmap. exists c. split; [done|].
  by apply list_elem_of_filter.
Qed.

(** The loop changes only the widgets bound to the scope. *)
Lemma push_loop_pushes_to ids j0 nm scope v cs st :
  (∀ c, c ∈ cs → bound_to scope c → prop_str (c_id c) ∈ ids) →
  pushes_to ids st (final (push_loop j0 nm scope v cs st)).
Proof.
  intros Hids.
  apply (along_for_each (pushes_to ids) (pushes_to_refl ids) (pushes_to_trans ids)
           always (λ _ _ _ _, I)); [|done].
  intros j c Hc st0 _.
  destruct (bool_decide (c_scope c = Some scope) && bool_decide (c_type c = Some "control"))
    eqn:Htest; [|apply pushes_to_refl].
  apply bound_to_test in Htest.
  destruct (setControlSettingValue_outcome c nm v st0)
    as [(e & -> & _)|(st' & el & el' & -> & _ & _ & _ & Hpush)]; simpl.
  - apply pushes_to_refl.
  - eapply pushes_to_weaken; [|done].
    intros id ->%list_elem_of_singleton. by apply Hids.
Qed.





(** A bound widget that is missing makes the loop throw. *)
Lemma push_loop_missing nm scope v cs : ∀ j0 st c,
  c ∈ cs → bound_to scope c →
  dom (outside st) !! prop_str (c_id c) = None →
  ∃ e st', push_loop j0 nm scope v cs st = Throw e st'.
Proof.
  induction cs as [|c0 cs IH]; intros j0 st c Hc Hb Hnone.
  { by apply elem_of_nil in Hc. }
  unfold push_loop. cbn [for_each]. unfold bind at 1.
  fold (push_loop (S j0) nm scope v cs).
  destruct (bool_decide (c_scope c0 = Some scope) && bool_decide (c_type c0 = Some "control"))
    eqn:Htest.
  - destruct (setControlSettingValue_outcome c0 nm v st)
      as [(e & -> & _)|(st1 & el & el' & -> & Hel & _ & _ & Hpush)]; [eauto|].
    apply elem_of_cons in Hc as [->|Hc]; [congruence|].
    apply (IH (S j0) st1 c Hc Hb).
    destruct Hpush as (_ & _ & _ & _ & Hgone & _). by apply Hgone.
  - apply elem_of_cons in Hc as [->|Hc].
    + apply bound_to_test in Hb. congruence.
    + by apply (IH (S j0) st c).
Qed.

(** With no callback to call, [notify] does nothing. *)
Lemma notify_falsy i nm st s :
  settings st !! i = Some s → truthy (callback s) = false →
  notify host_call i nm st = Ret tt st.
Proof.
  intros Hi Hcb. unfold notify, bind, read_setting. by rewrite Hi, Hcb.
Qed.

Lemma saveToCookie_Ret st st' :
  saveToCookie st = Ret tt st' →
  ∃ out, exportSettings st (VStr "local") = inr out ∧
         st' = State (settings st) (ignoredScopes st) (loaded st)
                 (saveCookie "epl_prefs" out (outside st)).
Proof.
  unfold saveToCookie, bind, lift, get_state, set_outside.
  destruct (exportSettings st (VStr "local")) as [e|out]; [done|].
  intros [= <-]. by exists out.
Qed.

Lemma saveToCookie_saved st st' :
  saveToCookie st = Ret tt st' →
  ∃ out, exportSettings st' (VStr "local") = inr out ∧
         cookies (outside st') !! "epl_prefs" = Some out ∧
         core st' = core st ∧ dom (outside st') = dom (outside st) ∧
         console (outside st') = console (outside st).
Proof.
  intros (out & Hout & ->)%saveToCookie_Ret. exists out.
  split_and!; [done| |done..]. simpl. apply lookup_insert_eq.
Qed.

End SetValueEffects.

Section SetValueSteps.

Variable host_call : nat → setting → value → world → (exn + value) * world.

Implicit Types (c : control) (cs : list control) (st : state).

(** [setValue] step by step, on a setting that has values and controls. *)
Lemma setValue_steps nm scope v st i s m cs :
  scope ∈ scopes →
  getSetting st nm = Some (i, s) →
  val s = Some m →
  controls s = Some cs →
  setValue host_call nm scope v st =
    match push_loop 0 (name s) scope v cs (written i s m scope v st) with
    | Throw e st2 => Throw e st2
    | Ret _ st2 =>
        match notify host_call i nm st2 with
        | Throw e st3 => Throw e st3
        | Ret _ st3 => if loaded st3 then saveToCookie st3 else Ret tt st3
        end
    end.
Proof.
  intros Hscope Hget Hval Hcs. rewrite setValue_recognised, Hget by done.
  apply getSetting_lookup in Hget as [Hi _].
  unfold bind at 1, write_val, store_val. rewrite Hi, Hval.
  unfold after_write. rewrite Hcs. unfold bind, get_state, push_loop, written.
  repeat case_match; done.
Qed.

(** A returning [setValue] had a recognised scope and a values map. *)
Lemma setValue_Ret_inv nm scope v st st' i s :
  setValue host_call nm scope v st = Ret tt st' →
  getSetting st nm = Some (i, s) →
  scope ∈ scopes ∧ (∃ m, val s = Some m) ∧ ∃ cs, controls s = Some cs.
Proof.
  intros Hret Hget.
  destruct (decide (scope ∈ scopes)) as [Hscope|Hscope].
  2:{ unfold setValue in Hret. by rewrite bool_decide_eq_true_2 in Hret by done. }
  split; [done|].
  rewrite setValue_recognised, Hget in Hret by done.
  apply getSetting_lookup in Hget as [Hi _].
  unfold bind at 1, write_val, store_val in Hret. rewrite Hi in Hret.
  destruct (val s) as [m|]; [|done]. split; [by eexists|].
  unfold after_write, bind at 1 in Hret.
  destruct (controls s) as [cs|]; [by eexists|done].
Qed.

Lemma written_lookup i s m scope v st :
  settings st !! i = Some s →
  settings (written i s m scope v st) !! i = Some (with_val s (<[scope := v]> m)).
Proof. intros Hi. simpl. apply list_lookup_insert_eq. by eapply lookup_lt_Some. Qed.


(** X5. [setValue] does not undo its write: when a widget the setting binds
    to the scope is missing from the page, the call throws, yet the value is
    already in the values map (so [getValue] sees it); the cookie is not
    saved and nothing is printed. *)
Theorem setValue_throws_after_write nm scope v st i s m cs c :
  getSetting st nm = Some (i, s) →
  val s = Some m →
  controls s = Some cs →
  scope ∈ scopes →
  c ∈ cs → bound_to scope c →
  dom (outside st) !! prop_str (c_id c) = None →
  ∃ e st',
    setValue host_call nm scope v st = Throw e st' ∧
    core st' = core (written i s m scope v st) ∧
    getValue st' nm = getValue (written i s m scope v st) nm ∧
    cookies (outside st') = cookies (outside st) ∧
    console (outside st') = console (outside st).
Proof.
  intros Hget Hval Hcs Hscope Hc Hb Hnone.
  rewrite (setValue_steps nm scope v st i s m cs Hscope Hget Hval Hcs).
  destruct (push_loop_missing (name s) scope v cs 0 (written i s m scope v st) c Hc Hb Hnone)
    as (e & st' & Hloop).
  pose proof (push_loop_pushes_to (bound_ids scope cs) 0 (name s) scope v cs
                (written i s m scope v st) (bound_ids_elem scope cs)) as Hpush.
  rewrite Hloop in *. simpl in Hpush.
  destruct Hpush as (Hcore & Hconsole & Hcookies & _).
  exists e, st'. split_and!; [done|done| |done|done].
  unfold core in Hcore. injection Hcore as Hsettings Hignored _.
  unfold getValue, getSetting. by rewrite Hsettings, Hignored.
Qed.

(** A call that returns in the loaded state has saved the export of the
    "local" values as they are after it. *)
Lemma setValue_saved nm scope v st st' :
  loaded st = true →
  setValue host_call nm scope v st = Ret tt st' →
  ∃ out, exportSettings st' (VStr "local") = inr out ∧
         cookies (outside st') !! "epl_prefs" = Some out.
Proof.
  intros Hloaded Hret.
  destruct (getSetting st nm) as [[i s]|] eqn:Hget.
  2:{ destruct (decide (scope ∈ scopes)) as [Hscope|Hscope].
      - by rewrite setValue_recognised, Hget in Hret.
      - unfold setValue in Hret. by rewrite bool_decide_eq_true_2 in Hret. }
  destruct (setValue_Ret_inv _ _ _ _ _ _ _ Hret Hget) as (Hscope & (m & Hval) & cs & Hcs).
  rewrite (setValue_steps nm scope v st i s m cs Hscope Hget Hval Hcs) in Hret.
  destruct (push_loop 0 (name s) scope v cs (written i s m scope v st))
    as [[] st2|e st2] eqn:Hloop; [|done].
  pose proof (push_loop_pushes_to (bound_ids scope cs) 0 (name s) scope v cs
                (written i s m scope v st) (bound_ids_elem scope cs)) as (Hcore & _).
  rewrite Hloop in Hcore. simpl in Hcore.
  destruct (notify host_call i nm st2) as [[] st3|e st3] eqn:Hnotify; [|done].
  pose proof (outside_only_notify host_call i nm st2) as Hcore3.
  rewrite Hnotify in Hcore3. simpl in Hcore3.
  assert (loaded st3 = true) as Hl3.
  { unfold core in *. injection Hcore3 as _ _ ->. by injection Hcore as _ _ ->. }
  rewrite Hl3 in Hret.
  apply saveToCookie_saved in Hret as (out & ? & ? & _). by exists out.
Qed.

(** X6. [setValue] saves the cookie exactly once the module is loaded: a
    call that returns in the loaded state leaves in the slot "epl_prefs"
    the export of the "local" values as they are after the call; before
    the load has finished, a call on a setting without callback leaves the
    cookies alone, whether it returns or throws. *)
Theorem setValue_saves_once_loaded nm scope v st :
  (∀ st', loaded st = true →
     setValue host_call nm scope v st = Ret tt st' →
     ∃ out, exportSettings st' (VStr "local") = inr out ∧
            cookies (outside st') !! "epl_prefs" = Some out) ∧
  (loaded st = false →
   (∀ i s, getSetting st nm = Some (i, s) → truthy (callback s) = false) →
   cookies (outside (final (setValue host_call nm scope v st))) = cookies (outside st)).
Proof.
  split.
  - intros st' Hloaded Hret. by eapply setValue_saved.
  - intros Hloaded Hcb.
    destruct (decide (scope ∈ scopes)) as [Hscope|Hscope].
    2:{ unfold setValue. by rewrite bool_decide_eq_true_2. }
    destruct (getSetting st nm) as [[i s]|] eqn:Hget.
    2:{ by rewrite setValue_recognised, Hget. }
    specialize (Hcb i s eq_refl).
    pose proof (getSetting_lookup _ _ _ _ Hget) as [Hi _].
    destruct (val s) as [m|] eqn:Hval.
    2:{ rewrite setValue_recognised, Hget by done.
        unfold bind at 1, write_val. by rewrite Hi, Hval. }
    destruct (controls s) as [cs|] eqn:Hcs.
    2:{ rewrite setValue_recognised, Hget by done.
        unfold bind at 1, write_val, store_val. rewrite Hi, Hval.
        unfold after_write, bind at 1. by rewrite Hcs. }
    rewrite (setValue_steps nm scope v st i s m cs Hscope Hget Hval Hcs).
    pose proof (push_loop_pushes_to (bound_ids scope cs) 0 (name s) scope v cs
                  (written i s m scope v st) (bound_ids_elem scope cs))
      as (Hcore & _ & Hcookies & _).
    destruct (push_loop 0 (name s) scope v cs (written i s m scope v st))
      as [[] st2|e st2] eqn:Hloop; simpl in *; [|done].
    assert (settings st2 !! i = Some (with_val s (<[scope := v]> m))) as Hi2.
    { unfold core in Hcore. injection Hcore as -> _ _. by apply written_lookup. }
    rewrite (notify_falsy host_call i nm st2 _ Hi2 Hcb).
    assert (loaded st2 = false) as ->.
    { unfold core in Hcore. by injection Hcore as _ _ ->. }
    done.
Qed.

End SetValueSteps.


(** Without the check box the call throws, and the value is written. *)
Lemma setValue_throws_after_write_witness :
  ∃ e st',
    setValue (table_call bob_query) (Some "stickychat") "local" (VBool true) stickychat_state
      = Throw e st' ∧
    getValue st' (Some "stickychat") = inr (VBool true).
Proof.
  destruct (setValue_throws_after_write (table_call bob_query) (Some "stickychat") "local"
              (VBool true) stickychat_state 0 stickychat_setting stickychat_values
              [widget_control "local" "options-stickychat"]
              (widget_control "local" "options-stickychat"))
    as (e & st' & Hthrow & _ & Hget & _).
  - reflexivity.
  - reflexivity.
  - reflexivity.
  - by_evaluation.
  - left.
  - split; reflexivity.
  - reflexivity.
  - exists e, st'. split; [exact Hthrow|]. rewrite Hget. vm_compute. reflexivity.
Defined.

(** The loaded page saves its cookie. *)
Lemma setValue_saves_once_loaded_witness :
  ∃ st' out,
    setValue (table_call bob_query) (Some "stickychat") "local" (VBool true) stickychat_page
      = Ret tt st' ∧
    exportSettings st' (VStr "local") = inr out ∧
    cookies (outside st') !! "epl_prefs" = Some out.
Proof.
  destruct (setValue (table_call bob_query) (Some "stickychat") "local" (VBool true)
              stickychat_page) as [[] st'|e st'] eqn:Hret;
    [|vm_compute in Hret; discriminate].
  destruct (setValue_saves_once_loaded (table_call bob_query) (Some "stickychat") "local"
              (VBool true) stickychat_page) as (Hsaved & _).
  destruct (Hsaved st') as (out & Hout & Hcookie).
  - reflexivity.
  - exact Hret.
  - exists st', out. split; [reflexivity|]. split; [exact Hout|exact Hcookie].
Defined.

(** ** More on the ignored scopes *)

Section IgnoreMore.

Variable host_call : nat → setting → value → world → (exn + value) * world.

Implicit Types (l : list string) (scope : string).

Lemma remove_first_push scope l :
  scope ∉ l → remove_first scope (l ++ [scope]) = l.
Proof.
  induction l as [|x l IH]; intros Hnot; simpl.
  - by rewrite bool_decide_eq_true_2.
  - apply not_elem_of_cons in Hnot as [Hne Hnot].
    rewrite bool_decide_eq_false_2 by congruence. by rewrite IH.
Qed.

Lemma elem_of_remove_first scope l x :
  NoDup l → x ∈ remove_first scope l ↔ x ∈ l ∧ x ≠ scope.
Proof.
  induction 1 as [|y l Hy Hnd IH]; simpl.
  - split; [by intros ?%elem_of_nil|by intros [?%elem_of_nil _]].
  - case_bool_decide as Heq.
    + subst y. split.
      * intros Hx. split; [by right|]. by intros ->.
      * intros [[->|?]%elem_of_cons ?]; done.
    + rewrite !elem_of_cons, IH. split.
      * intros [->|[? ?]]; split; auto.
      * intros [[->|?] ?]; auto.
Qed.

(** X7. Ignoring a scope that was not ignored and then stopping to ignore
    it gives back the very state one started from; and on ignored scopes
    without repetition, stopping to ignore a scope removes that scope and no
    other. *)
Theorem setIgnoreScope_undo st scope on off :
  scope ∈ scopes →
  truthy on = true → truthy off = false →
  (scope ∉ ignoredScopes st →
   ∃ st1, setIgnoreScope scope on st = Ret tt st1 ∧
          setIgnoreScope scope off st1 = Ret tt st) ∧
  (NoDup (ignoredScopes st) →
   ∃ st1, setIgnoreScope scope off st = Ret tt st1 ∧
          settings st1 = settings st ∧
          ∀ sc, sc ∈ ignoredScopes st1 ↔ sc ∈ ignoredScopes st ∧ sc ≠ scope).
Proof.
  intros Hscope Hon Hoff. unfold setIgnoreScope.
  rewrite bool_decide_eq_false_2 by (intros ?; done).
  rewrite Hon, Hoff. simpl. split.
  - intros Hnot. rewrite bool_decide_eq_false_2 by done. simpl.
    eexists. split; [done|]. simpl.
    rewrite bool_decide_eq_true_2 by (apply elem_of_app; right; by left). simpl.
    rewrite remove_first_push by done. by destruct st.
  - intros Hnd. case_bool_decide as Hin; simpl.
    + eexists. split; [done|]. split; [done|]. simpl.
      intros sc. by apply elem_of_remove_first.
    + exists st. split; [done|]. split; [done|].
      intros sc. split; [|by intros [? _]]. intros Hsc. split; [done|]. by intros ->.
Qed.

(** The scan with one more scope ignored is the scan with that scope's
    entry undefined. *)
Lemma getValue_scan_ignore ign ign' i s m scope scs :
  val s = Some m →
  (∀ sc, sc ∈ ign' ↔ sc ∈ ign ∨ sc = scope) →
  getValue_scan ign' (Some (i, s)) scs =
  getValue_scan ign (Some (i, with_val s (<[scope := VUndefined]> m))) scs.
Proof.
  intros Hval Hign. induction scs as [|sc scs IH]; simpl; [done|].
  rewrite Hval, IH.
  destruct (decide (sc = scope)) as [->|Hne].
  - rewrite (bool_decide_eq_false_2 (scope ∉ ign')) by (intros Hnot; apply Hnot, Hign; auto).
    unfold val_read. rewrite lookup_insert_eq. simpl. by case_bool_decide.
  - unfold val_read. rewrite lookup_insert_ne by done.
    destruct (decide (sc ∈ ign)) as [Hin|Hnot].
    + rewrite !bool_decide_eq_false_2; [done| |]; intros H; apply H; [done|].
      apply Hign. by left.
    + rewrite !bool_decide_eq_true_2; [done|done|].
      intros [?|?]%Hign; done.
Qed.

(** X8. For the resolver, ignoring a scope is the same as having undefined
    written to it: on a registered setting that has its values map,
    [getValue(name)] after [setIgnoreScope(scope, true)] equals
    [getValue(name)] after [setValue(name, scope, undefined)]. *)
Theorem ignoring_is_writing_undefined st nm scope ignore i s m :
  getSetting st nm = Some (i, s) →
  val s = Some m →
  scope ∈ scopes →
  truthy ignore = true →
  getValue (final (setIgnoreScope scope ignore st)) nm =
  getValue (final (setValue host_call nm scope VUndefined st)) nm.
Proof.
  intros Hget Hval Hscope Hignore.
  pose proof (setValue_core host_call nm scope VUndefined st i s m Hscope Hget Hval) as Hcore.
  unfold core in Hcore. injection Hcore as Hsettings Hignored _.
  unfold getValue at 2.
  rewrite (getSetting_after_write st _ nm i s _ Hget Hsettings), Hignored.
  assert (∃ st1, final (setIgnoreScope scope ignore st) = st1 ∧ settings st1 = settings st ∧
                 ∀ sc, sc ∈ ignoredScopes st1 ↔ sc ∈ ignoredScopes st ∨ sc = scope)
    as (st1 & -> & Hs1 & Hi1).
  { unfold setIgnoreScope. rewrite bool_decide_eq_false_2 by (intros ?; done).
    rewrite Hignore. simpl. case_bool_decide as Hin; simpl.
    - exists st. split; [done|]. split; [done|]. intros sc. split; [auto|].
      by intros [?| ->].
    - eexists. split; [done|]. split; [done|]. simpl. intros sc.
      rewrite elem_of_app, list_elem_of_singleton. done. }
  unfold getValue, getSetting. rewrite Hs1. fold (getSetting st nm). rewrite Hget.
  by apply getValue_scan_ignore.
Qed.

(** X9. The ignored scopes stay among the three scopes: [setIgnoreScope]
    keeps them so, whether it returns or throws, and the validator then has
    nothing to say about them. *)
Theorem ignoredScopes_stay_scopes st scope ignore :
  Forall (λ sc, sc ∈ scopes) (ignoredScopes st) →
  Forall (λ sc, sc ∈ scopes) (ignoredScopes (final (setIgnoreScope scope ignore st))) ∧
  check_ignored (ignoredScopes (final (setIgnoreScope scope ignore st))) [] = [].
Proof.
  intros Hall.
  assert (Forall (λ sc, sc ∈ scopes) (ignoredScopes (final (setIgnoreScope scope ignore st))))
    as Hall'.
  { unfold setIgnoreScope. case_bool_decide as Hscope; [done|].
    destruct (truthy ignore); simpl.
    - case_bool_decide; simpl; [done|].
      apply Forall_app. split; [done|]. apply Forall_singleton.
      by destruct (decide (scope ∈ scopes)).
    - case_bool_decide; simpl; [|done].
      apply Forall_forall. intros x Hx%remove_first_subseteq.
      by eapply Forall_forall in Hall. }
  split; [done|]. by apply check_ignored_nil.
Qed.

End IgnoreMore.

(** "global" ignored and released on [rtl_state]. *)
Lemma setIgnoreScope_undo_witness :
  ∃ st1, setIgnoreScope "global" (VBool true) rtl_state = Ret tt st1 ∧
         setIgnoreScope "global" (VBool false) st1 = Ret tt rtl_state.
Proof.
  destruct (setIgnoreScope_undo rtl_state "global" (VBool true) (VBool false)) as (Hundo & _).
  - by_evaluation.
  - reflexivity.
  - reflexivity.
  - apply Hundo. by_evaluation.
Defined.

(** Ignoring "get" on [rtl_state], where "local" is ignored already. *)
Lemma ignoring_is_writing_undefined_witness :
  getValue (final (setIgnoreScope "get" (VBool true) rtl_state)) (Some "rtl") =
  getValue (final (setValue (table_call bob_query) (Some "rtl") "get" VUndefined rtl_state))
    (Some "rtl").
Proof.
  apply (ignoring_is_writing_undefined (table_call bob_query) rtl_state (Some "rtl") "get"
           (VBool true) 0 rtl_setting rtl_values).
  - reflexivity.
  - reflexivity.
  - by_evaluation.
  - reflexivity.
Defined.

Lemma ignoredScopes_stay_scopes_witness :
  check_ignored (ignoredScopes (final (setIgnoreScope "get" (VBool true) rtl_state))) [] = [].
Proof.
  apply (ignoredScopes_stay_scopes rtl_state "get" (VBool true)).
  apply Forall_singleton. by_evaluation.
Defined.

(** ** More on the resolver and on lookup *)

Section ResolverMore.

Implicit Types (st : state) (m : gmap string value).

Lemma getValue_scan_origin ign i s m scs v :
  val s = Some m →
  getValue_scan ign (Some (i, s)) scs = inr v →
  v = VNull ∨ ∃ sc, sc ∈ scs ∧ (sc ∉ ign) ∧ val_read m sc = v.
Proof.
  intros Hval. induction scs as [|sc scs IH]; simpl; [intros [= <-]; by left|].
  rewrite Hval. case_bool_decide as Hsc.
  - destruct (is_defined (val_read m sc)) eqn:Hdef.
    + intros [= <-]. right. exists sc. split; [by left|done].
    + intros [?|(sc' & ? & ?)]%IH; [by left|]. right. exists sc'. split; [by right|done].
  - intros [?|(sc' & ? & ?)]%IH; [by left|]. right. exists sc'. split; [by right|done].
Qed.

(** X10. Whatever [getValue] returns is never undefined: it is null, or
    the defined entry that the setting found under the name holds for a
    scope that is not ignored.  With nothing registered under the name it
    can only return null. *)
Theorem getValue_returns_null_or_entry st nm v :
  getValue st nm = inr v →
  v ≠ VUndefined ∧
  (v = VNull ∨
   ∃ i s m sc, getSetting st nm = Some (i, s) ∧ val s = Some m ∧
               sc ∈ scopes ∧ (sc ∉ ignoredScopes st) ∧ val_read m sc = v).
Proof.
  unfold getValue. intros Hv. split.
  { apply getValue_scan_defined in Hv. by intros ->. }
  destruct (getSetting st nm) as [[i s]|] eqn:Hget.
  - destruct (val s) as [m|] eqn:Hval.
    + destruct (getValue_scan_origin _ _ _ _ _ _ Hval Hv) as [?|(sc & ? & ? & ?)]; [by left|].
      right. by exists i, s, m, sc.
    + left. revert Hv. generalize scopes. intros scs.
      induction scs as [|sc scs IH]; simpl; [by intros [= <-]|].
      rewrite Hval. by case_bool_decide.
  - left. revert Hv. generalize scopes. intros scs.
    induction scs as [|sc scs IH]; simpl; [by intros [= <-]|].
    by case_bool_decide.
Qed.

(** The first entry of a name. *)
Lemma getSetting_first st i s :
  settings st !! i = Some s →
  ∃ j s', (j ≤ i)%nat ∧ getSetting st (name s) = Some (j, s') ∧ name s' = name s.
Proof.
  intros Hi.
  destruct (list_find_elem_of (λ s0, name s0 = name s) (settings st) s) as [[j s'] Hfind];
    [by eapply list_elem_of_lookup_2|done|].
  exists j, s'. pose proof Hfind as (Hj & Hname & Hleast)%list_find_Some.
  split_and!; [|done|done].
  destruct (decide (j ≤ i)%nat) as [?|Hgt]; [done|].
  exfalso. apply (Hleast i s Hi); [lia|done].
Qed.

Lemma getSetting_distinct st i s :
  NoDup (names st) → settings st !! i = Some s → getSetting st (name s) = Some (i, s).
Proof.
  intros Hnd Hi. destruct (getSetting_first st i s Hi) as (j & s' & Hle & Hfind & Hname).
  pose proof Hfind as (Hj & _)%list_find_Some.
  assert (j = i) as ->.
  { eapply (NoDup_lookup (names st)); [done| |].
    - unfold names. by rewrite list_lookup_fmap, Hj.
    - unfold names. rewrite list_lookup_fmap, Hi. simpl. by rewrite Hname. }
  rewrite Hfind. congruence.
Qed.


End ResolverMore.

(** "rtl" on [rtl_state]. *)
Lemma getValue_returns_null_or_entry_witness :
  VBool true ≠ VUndefined ∧
  (VBool true = VNull ∨
   ∃ i s m sc, getSetting rtl_state (Some "rtl") = Some (i, s) ∧ val s = Some m ∧
               sc ∈ scopes ∧ (sc ∉ ignoredScopes rtl_state) ∧ val_read m sc = VBool true).
Proof.
  apply (getValue_returns_null_or_entry rtl_state (Some "rtl") (VBool true)).
  vm_compute. reflexivity.
Defined.


(** ** More on the export and the cookie *)

Section ExportMore.

Variable host_call : nat → setting → value → world → (exn + value) * world.

Implicit Types (st : state) (out : exported).

Lemma export_loop_returns ss scope out :
  (∃ out', export_loop ss scope out = inr out') ↔ Forall (λ s, is_Some (val s)) ss.
Proof.
  revert out. induction ss as [|s ss IH]; intros out; cbn [export_loop].
  - split; [constructor|by eexists].
  - rewrite Forall_cons. destruct (val s) as [m|].
    + rewrite IH. split; [by split|by intros [_ ?]].
    + split; [by intros [? ?]|]. by intros [[? ?] _].
Qed.

Lemma export_loop_throws ss scope out e :
  export_loop ss scope out = inl e → e = TypeError "settings[i].val is undefined".
Proof.
  revert out. induction ss as [|s ss IH]; intros out; cbn [export_loop]; [done|].
  destruct (val s); [apply IH|by intros [= <-]].
Qed.

Lemma export_loop_keys ss scope out out' nm :
  export_loop ss scope out = inr out' →
  is_Some (out' !! nm) ↔ is_Some (out !! nm) ∨ ∃ s, s ∈ ss ∧ prop_str (name s) = nm.
Proof.
  revert out. induction ss as [|s ss IH]; intros out; cbn [export_loop].
  - intros [= <-]. split; [by left|].
    intros [?|(s & Hs & _)]; [done|by apply elem_of_nil in Hs].
  - destruct (val s) as [m|]; [|done]. intros Hloop. rewrite (IH _ Hloop).
    destruct (decide (prop_str (name s) = nm)) as [Heq|Hne].
    + rewrite Heq, lookup_insert_eq. split; [|by left].
      intros _. right. exists s. split; [by left|done].
    + rewrite lookup_insert_ne by done. split.
      * intros [?|(s' & ? & ?)]; [by left|]. right. exists s'. split; [by right|done].
      * intros [?|(s' & [->|?]%elem_of_cons & ?)]; [by left|done|].
        right. by exists s'.
Qed.

(** X12. [exportSettings] returns exactly when every setting has its
    values map, and otherwise throws a type error; the object it returns
    has an entry, possibly empty, for the name of every setting and for
    nothing else. *)
Theorem exportSettings_one_entry_per_name st scope :
  ((∃ out, exportSettings st scope = inr out) ↔
   Forall (λ s, is_Some (val s)) (settings st)) ∧
  (∀ e, exportSettings st scope = inl e → e = TypeError "settings[i].val is undefined") ∧
  (∀ out nm, exportSettings st scope = inr out →
     is_Some (out !! nm) ↔ ∃ s, s ∈ settings st ∧ prop_str (name s) = nm).
Proof.
  unfold exportSettings. split_and!.
  - apply export_loop_returns.
  - intros e. apply export_loop_throws.
  - intros out nm Hloop. rewrite (export_loop_keys _ _ _ _ nm Hloop).
    rewrite lookup_empty. split; [intros [[? ?]|?]; done|by right].
Qed.

(** With "local" asked for, a values map whose "local" entry is falsy
    exports nothing. *)
Lemma export_scopes_local_falsy m :
  truthy (val_read m "local") = false →
  export_scopes m (VStr "local") scopes ∅ = ∅.
Proof.
  intros Hfalsy. apply map_eq. intros sc. rewrite lookup_empty.
  destruct (export_scopes m (VStr "local") scopes ∅ !! sc) as [v|] eqn:Hsc; [|done].
  apply export_scopes_Some in Hsc as [Hempty|(_ & Hp & _)].
  { by rewrite lookup_empty in Hempty. }
  unfold passes in Hp. apply andb_true_iff in Hp as [Htruthy Hscope].
  assert (sc = "local") as ->; [|congruence].
  destruct (String.eqb "local" sc) eqn:Heq; [by apply String.eqb_eq in Heq|].
  unfold loose_eq_str in Hscope. rewrite Heq in Hscope. done.
Qed.

(** X13. A falsy value is not kept by the cookie: when [setValue] writes a
    falsy value (false, null, the empty string, 0, undefined) to the
    "local" scope of a setting whose name no other setting has and returns
    in the loaded state, the saved cookie holds an empty entry for that
    setting. *)
Theorem falsy_local_value_not_saved nm v st st' i s :
  loaded st = true →
  truthy v = false →
  getSetting st nm = Some (i, s) →
  (∀ j s', settings st !! j = Some s' → prop_str (name s') = prop_str nm → j = i) →
  setValue host_call nm "local" v st = Ret tt st' →
  ∃ out, cookies (outside st') !! "epl_prefs" = Some out ∧
         out !! prop_str nm = Some ∅.
Proof.
  intros Hloaded Hfalsy Hget Hunique Hret.
  destruct (setValue_saved host_call nm "local" v st st' Hloaded Hret) as (out & Hout & Hcookie).
  exists out. split; [done|].
  destruct (setValue_Ret_inv host_call _ _ _ _ _ _ _ Hret Hget) as (Hscope & (m & Hval) & _).
  pose proof (setValue_core host_call nm "local" v st i s m Hscope Hget Hval) as Hcore.
  rewrite Hret in Hcore. unfold core in Hcore. simpl in Hcore.
  injection Hcore as Hsettings _ _.
  pose proof (getSetting_lookup _ _ _ _ Hget) as [Hi Hname].
  unfold exportSettings in Hout.
  assert (is_Some (out !! prop_str nm)) as [inner Hinner].
  { apply (export_loop_keys _ _ _ _ _ Hout). right.
    exists (with_val s (<["local" := v]> m)). split; [|by rewrite <- Hname].
    rewrite Hsettings. apply list_elem_of_insert. by eapply lookup_lt_Some. }
  rewrite Hinner. f_equal.
  destruct (export_loop_Some _ _ _ _ _ _ Hout Hinner) as [Hempty|(s0 & m0 & Hs0 & Hkey & Hval0 & ->)].
  { by rewrite lookup_empty in Hempty. }
  apply list_elem_of_lookup in Hs0 as [j Hj]. rewrite Hsettings in Hj.
  assert (j = i) as ->.
  { destruct (decide (j = i)) as [?|Hne]; [done|].
    rewrite list_lookup_insert_ne in Hj by done. by apply (Hunique j s0). }
  rewrite list_lookup_insert_eq in Hj by (by eapply lookup_lt_Some).
  injection Hj as <-. simpl in Hval0. injection Hval0 as <-.
  apply export_scopes_local_falsy. unfold val_read. by rewrite lookup_insert_eq.
Qed.

End ExportMore.

(** [rtl_state] exports; the table before the load does not. *)
Lemma exportSettings_one_entry_per_name_witness :
  (∃ out, exportSettings rtl_state VUndefined = inr out) ∧
  exportSettings (initial_state settings_table page_dom) VUndefined
    = inl (TypeError "settings[i].val is undefined").
Proof.
  destruct (exportSettings_one_entry_per_name rtl_state VUndefined) as (Hreturns & _).
  destruct (exportSettings_one_entry_per_name (initial_state settings_table page_dom) VUndefined)
    as (_ & Hthrows & _).
  split.
  - apply Hreturns. apply Forall_singleton. by eexists.
  - destruct (exportSettings (initial_state settings_table page_dom) VUndefined) as [e|out] eqn:He;
      [|vm_compute in He; discriminate].
    by rewrite (Hthrows e eq_refl).
Defined.

(** Unticking the check box of "stickychat": the cookie forgets it. *)
Lemma falsy_local_value_not_saved_witness :
  ∃ st' out,
    setValue (table_call bob_query) (Some "stickychat") "local" (VBool false) stickychat_page
      = Ret tt st' ∧
    cookies (outside st') !! "epl_prefs" = Some out ∧
    out !! "stickychat" = Some ∅.
Proof.
  destruct (setValue (table_call bob_query) (Some "stickychat") "local" (VBool false)
              stickychat_page) as [[] st'|e st'] eqn:Hret;
    [|vm_compute in Hret; discriminate].
  destruct (falsy_local_value_not_saved (table_call bob_query) (Some "stickychat") (VBool false)
              stickychat_page st' 0 stickychat_setting) as (out & Hcookie & Hentry).
  - reflexivity.
  - reflexivity.
  - reflexivity.
  - intros [|j] s' Hj _; [reflexivity|]. simpl in Hj. discriminate.
  - exact Hret.
  - exists st', out. split; [reflexivity|]. split; [exact Hcookie|exact Hentry].
Defined.

(** ** What the loader leaves behind *)

Section LoaderMore.

Variable urlVars : string → value.
Variable host_call : nat → setting → value → world → (exn + value) * world.

Implicit Types (st : state) (c : control) (cs : list control).

(** The parts of a load that returns. *)
Lemma loadSettings_Ret_inv st st' :
  loadSettings urlVars host_call st = Ret tt st' →
  registry_ok st ∧
  ∃ st2 st3,
    for_range 0 (length (settings st)) (load_setting urlVars host_call) st = Ret tt st2 ∧
    core st3 = core st2 ∧
    saveToCookie (State (settings st3) (ignoredScopes st3) true (outside st3)) = Ret tt st'.
Proof.
  intros Hload. unfold loadSettings in Hload.
  apply bind_Ret in Hload as ([] & st1 & Hcheck & Hload).
  assert (registry_ok st ∧ st1 = st) as [Hok ->].
  { destruct (decide (collected_errors st = [])) as [Hnil|Hne].
    - apply collected_errors_nil in Hnil.
      rewrite (checkSettingsArray_registry_ok st Hnil) in Hcheck. by injection Hcheck as <-.
    - rewrite checkSettingsArray_not_ok in Hcheck; [done|]. by rewrite <- collected_errors_nil. }
  split; [done|].
  apply bind_Ret in Hload as (? & ? & [= <- <-] & Hload).
  apply bind_Ret in Hload as ([] & st2 & Hloop1 & Hload).
  apply bind_Ret in Hload as ([] & st3 & Hloop2 & Hload).
  apply bind_Ret in Hload as ([] & st4 & [= <-] & Hsave).
  exists st2, st3. split_and!; [done| |done].
  assert (outside_only (for_range 0 (length (settings st))
            (λ i, let* s := read_setting i in notify host_call i (name s)))) as Hframe.
  { apply outside_only_for_range. intros i.
    apply outside_only_bind; [apply outside_only_read_setting|].
    intros s. apply outside_only_notify. }
  specialize (Hframe st2). by rewrite Hloop2 in Hframe.
Qed.

(** X14. When [loadSettings] returns, the registry was well formed, the
    module is loaded, every setting has its values map, names and ignored
    scopes are as before, and the slot "epl_prefs" of the cookies holds the
    export of the "local" values as they are at the end. *)
Theorem loadSettings_on_return st st' :
  loadSettings urlVars host_call st = Ret tt st' →
  registry_ok st ∧
  loaded st' = true ∧
  Forall (λ s, is_Some (val s)) (settings st') ∧
  names st' = names st ∧
  ignoredScopes st' = ignoredScopes st ∧
  ∃ out, exportSettings st' (VStr "local") = inr out ∧
         cookies (outside st') !! "epl_prefs" = Some out.
Proof.
  intros Hload.
  destruct (loadSettings_Ret_inv st st' Hload) as (Hok & st2 & st3 & _ & _ & Hsave).
  destruct (loadSettings_good urlVars host_call any_values (λ _ _ _ _ _, I) st st')
    as (Hgood & (Hlen & Hk & Hign) & Hloaded); [|done|].
  { apply Forall_forall. intros s0 _. by split. }
  split_and!; [done|done| | |done|].
  - eapply Forall_impl; [done|]. intros s (m & -> & _). by eexists.
  - unfold names. apply list_eq. intros i. rewrite !list_lookup_fmap.
    destruct (settings st !! i) as [s|] eqn:Hi.
    + destruct (Hk i s Hi) as (s' & -> & (Hname & _) & _). simpl. by rewrite Hname.
    + rewrite (lookup_ge_None_2 (settings st')); [done|].
      rewrite Hlen. by apply lookup_ge_None.
  - apply saveToCookie_saved in Hsave as (out & ? & ? & _). by exists out.
Qed.

End LoaderMore.

(** The page of the source, loaded. *)
Lemma loadSettings_on_return_witness :
  registry_ok (initial_state settings_table page_dom) ∧
  loaded loaded_page = true ∧
  ∃ out, exportSettings loaded_page (VStr "local") = inr out ∧
         cookies (outside loaded_page) !! "epl_prefs" = Some out.
Proof.
  destruct (loadSettings_on_return bob_query (table_call bob_query)
              (initial_state settings_table page_dom) loaded_page loaded_page_returns)
    as (Hok & Hloaded & _ & _ & _ & Hsaved).
  split; [exact Hok|]. split; [exact Hloaded|exact Hsaved].
Defined.

(** ** The values a load leaves, when names are distinct *)

Section LoaderValues.

Variable urlVars : string → value.
Variable host_call : nat → setting → value → world → (exn + value) * world.

Implicit Types (st : state) (c : control) (cs : list control) (sc : string).

Lemma touches_refl k st : touches k st st.
Proof. by split_and!. Qed.

Lemma touches_trans k st1 st2 st3 :
  touches k st1 st2 → touches k st2 st3 → touches k st1 st3.
Proof.
  intros (Hn1 & Hi1 & Hs1) (Hn2 & Hi2 & Hs2). split_and!; [congruence..|].
  intros i Hi. by rewrite Hs2, Hs1.
Qed.

Lemma touches_distinct k st st' : distinct_names st → touches k st st' → distinct_names st'.
Proof. unfold distinct_names. by intros ? (-> & _). Qed.

Lemma touches_core k st st' : core st' = core st → touches k st st'.
Proof.
  unfold core, touches, names. intros [= -> -> _]. by split_and!.
Qed.

Lemma names_insert (l : list setting) i s m :
  l !! i = Some s → name <$> <[i := with_val s m]> l = name <$> l.
Proof.
  intros Hi. rewrite list_fmap_insert. simpl.
  apply list_insert_id. by rewrite list_lookup_fmap, Hi.
Qed.

(** A state whose registry is that of [st] with entry [k] given new
    values. *)
Lemma touches_insert k s m st st' :
  settings st !! k = Some s →
  settings st' = <[k := with_val s m]> (settings st) →
  ignoredScopes st' = ignoredScopes st →
  touches k st st'.
Proof.
  intros Hk Hs Hi. unfold touches, names. rewrite Hs. split_and!; [|done|].
  - by apply names_insert.
  - intros i Hne. by apply list_lookup_insert_ne.
Qed.

Lemma store_val_touches k m st : touches k st (final (store_val k m st)).
Proof.
  unfold store_val. destruct (settings st !! k) as [s|] eqn:Hk; simpl; [|apply touches_refl].
  by eapply touches_insert.
Qed.

Lemma write_val_touches k sc v st : touches k st (final (write_val k sc v st)).
Proof.
  unfold write_val. destruct (settings st !! k) as [s|] eqn:Hk; [|apply touches_refl].
  destruct (val s); [apply store_val_touches|apply touches_refl].
Qed.

Lemma setValue_touches nm sc v st k s :
  getSetting st nm = Some (k, s) →
  touches k st (final (setValue host_call nm sc v st)).
Proof.
  intros Hget. destruct (decide (sc ∈ scopes)) as [Hsc|Hsc].
  2:{ unfold setValue. rewrite bool_decide_eq_true_2 by done. apply touches_refl. }
  pose proof (getSetting_lookup _ _ _ _ Hget) as [Hk _].
  destruct (val s) as [m|] eqn:Hval.
  - pose proof (setValue_core host_call nm sc v st k s m Hsc Hget Hval) as Hcore.
    unfold core in Hcore. injection Hcore as Hs Hi _. by eapply touches_insert.
  - rewrite setValue_recognised, Hget by done.
    unfold bind, write_val. rewrite Hk, Hval. apply touches_refl.
Qed.

Lemma seed_control_touches k c st :
  touches k st (final (seed_control urlVars host_call k c st)).
Proof.
  unfold seed_control. case_bool_decide.
  - case_match; [apply write_val_touches|apply touches_refl].
  - case_bool_decide; [|apply touches_refl].
    apply (along_bind (touches k) (touches_trans k) always (λ _ _ _ _, I));
      [| |done].
    + intros st0 _. apply touches_core, outside_only_read_setting.
    + intros s. apply (along_bind (touches k) (touches_trans k) always
                         (λ _ _ _ _, I)).
      * intros st0 _. apply touches_core, outside_only_call_value.
      * intros r st0 _. apply write_val_touches.
Qed.

Lemma commit_scope_touches k sc st :
  distinct_names st →
  touches k st (final (commit_scope host_call k sc st)).
Proof.
  intros Hnd. unfold commit_scope, bind, read_setting.
  destruct (settings st !! k) as [s|] eqn:Hk; [|apply touches_refl].
  destruct (val s) as [m|]; [|apply touches_refl].
  destruct (is_defined (val_read m sc)); [|apply touches_refl].
  apply (setValue_touches _ _ _ _ k s). by apply getSetting_distinct.
Qed.

Lemma load_setting_touches k st :
  distinct_names st →
  touches k st (final (load_setting urlVars host_call k st)).
Proof.
  intros Hnd. unfold load_setting.
  apply (along_bind (touches k) (touches_trans k)
           distinct_names (touches_distinct k)); [| |done].
  { intros st0 _. apply touches_core, outside_only_read_setting. }
  intros s.
  apply (along_bind (touches k) (touches_trans k)
           distinct_names (touches_distinct k)).
  { intros st0 _. apply store_val_touches. }
  intros _.
  apply (along_bind (touches k) (touches_trans k)
           distinct_names (touches_distinct k)).
  { destruct (controls s) as [cs|]; [|intros ? _; apply touches_refl].
    apply (along_for_each (touches k) (touches_refl k) (touches_trans k)
             distinct_names (touches_distinct k)).
    intros j c _ st0 _. apply seed_control_touches. }
  intros _.
  apply (along_for_each (touches k) (touches_refl k) (touches_trans k)
           distinct_names (touches_distinct k)).
  intros j sc _ st0 Hnd0. by apply commit_scope_touches.
Qed.

Lemma touches_touches_from k lo st st' :
  (lo ≤ k)%nat → touches k st st' → touches_from lo st st'.
Proof.
  intros Hle (Hn & Hi & Hs). split_and!; [done..|].
  intros i Hlt. apply Hs. lia.
Qed.

(** The turns from [lo] on leave the entries before [lo] alone. *)
Lemma first_loop_touches_from n : ∀ lo st,
  distinct_names st →
  touches_from lo st (final (for_range lo n (load_setting urlVars host_call) st)).
Proof.
  induction n as [|n IH]; intros lo st Hnd; simpl; [by split_and!|].
  unfold bind.
  pose proof (load_setting_touches lo st Hnd) as Hturn.
  destruct (load_setting urlVars host_call lo st) as [[] st1|e st1] eqn:Hload; simpl in *.
  - pose proof (touches_distinct lo st st1 Hnd Hturn) as Hnd1.
    destruct (IH (S lo) st1 Hnd1) as (Hn & Hi & Hs).
    destruct Hturn as (Hn1 & Hi1 & Hs1).
    split_and!; [congruence..|].
    intros i Hlt. rewrite Hs by lia. apply Hs1. lia.
  - by apply (touches_touches_from lo).
Qed.

(** In a loop that returns, turn [i] ran from a state with the same names
    and the same entry [i], and nothing after it changed what it left in
    entry [i]. *)
Lemma first_loop_turn n : ∀ lo st st' i,
  distinct_names st →
  for_range lo n (load_setting urlVars host_call) st = Ret tt st' →
  (lo ≤ i < lo + n)%nat →
  ∃ st1 st1',
    distinct_names st1 ∧
    settings st1 !! i = settings st !! i ∧
    load_setting urlVars host_call i st1 = Ret tt st1' ∧
    settings st' !! i = settings st1' !! i.
Proof.
  induction n as [|n IH]; intros lo st st' i Hnd Hloop Hi; [lia|].
  simpl in Hloop. apply bind_Ret in Hloop as ([] & sta & Hturn & Hrest).
  pose proof (load_setting_touches lo st Hnd) as Htouch.
  rewrite Hturn in Htouch. simpl in Htouch.
  pose proof (touches_distinct lo st sta Hnd Htouch) as Hnda.
  destruct (decide (i = lo)) as [->|Hne].
  - exists st, sta. split_and!; [done|done|done|].
    pose proof (first_loop_touches_from n (S lo) sta Hnda) as (_ & _ & Hs).
    rewrite Hrest in Hs. simpl in Hs. apply Hs. lia.
  - destruct (IH (S lo) sta st' i Hnda Hrest) as (st1 & st1' & ? & Hsame & ? & ?); [lia|].
    exists st1, st1'. split_and!; [done| |done|done].
    rewrite Hsame. destruct Htouch as (_ & _ & Hs). apply Hs. lia.
Qed.

Lemma entry_read_lookup st st' i sc :
  settings st' !! i = settings st !! i → entry_read st' i sc = entry_read st i sc.
Proof. unfold entry_read. by intros ->. Qed.

Lemma write_val_entry i key v st st' sc :
  write_val i key v st = Ret tt st' →
  entry_read st' i sc = if decide (key = sc) then v else entry_read st i sc.
Proof.
  unfold write_val, store_val, entry_read.
  destruct (settings st !! i) as [s|] eqn:Hi; [|done].
  destruct (val s) as [m|] eqn:Hval; [|done].
  intros [= <-]. simpl.
  rewrite list_lookup_insert_eq by (by eapply lookup_lt_Some). simpl.
  unfold val_read. case_decide as Hkey.
  - subst. by rewrite lookup_insert_eq.
  - by rewrite lookup_insert_ne.
Qed.

Lemma seed_control_entry i c st st' sc :
  seed_control urlVars host_call i c st = Ret tt st' →
  (c_type c = Some "custom" → prop_str (c_scope c) ≠ sc) →
  entry_read st' i sc = seeded_get urlVars [c] sc (entry_read st i sc).
Proof.
  unfold seed_control. cbn [seeded_get]. intros Hseed Hcustom.
  case_bool_decide as Hget; simpl.
  - destruct (truthy (coerce_param _)) eqn:Htruthy.
    + rewrite (write_val_entry _ _ _ _ _ sc Hseed).
      rewrite andb_true_r. by case_decide; case_bool_decide.
    + injection Hseed as <-. by rewrite andb_false_r.
  - case_bool_decide as Hc.
    + apply bind_Ret in Hseed as (s & st0 & Hread & Hseed).
      apply bind_Ret in Hseed as (r & st1 & Hcall & Hwrite).
      rewrite (write_val_entry _ _ _ _ _ sc Hwrite).
      rewrite decide_False by (by apply Hcustom).
      apply entry_read_lookup.
      pose proof (outside_only_call_value host_call (c_callback c) s
                    (scope_arg (c_scope c)) st0) as Hcore1.
      pose proof (outside_only_read_setting i st) as Hcore0.
      rewrite Hcall in Hcore1. rewrite Hread in Hcore0. unfold core in *. simpl in *.
      injection Hcore1 as -> _ _. by injection Hcore0 as -> _ _.
    + by injection Hseed as <-.
Qed.

Lemma seed_loop_entry i sc cs : ∀ j0 st st',
  for_each j0 cs (λ _ c, seed_control urlVars host_call i c) st = Ret tt st' →
  (∀ c, c ∈ cs → c_type c = Some "custom" → prop_str (c_scope c) ≠ sc) →
  entry_read st' i sc = seeded_get urlVars cs sc (entry_read st i sc).
Proof.
  induction cs as [|c cs IH]; intros j0 st st' Hloop Hcustom.
  - by injection Hloop as <-.
  - cbn [for_each] in Hloop. apply bind_Ret in Hloop as ([] & st1 & Hhead & Hrest).
    rewrite (IH _ _ _ Hrest) by (intros ? ?; apply Hcustom; by right).
    rewrite (seed_control_entry i c st st1 sc Hhead) by (apply Hcustom; by left).
    done.
Qed.

Lemma commit_scope_entry i sc' st st' sc :
  distinct_names st →
  commit_scope host_call i sc' st = Ret tt st' →
  entry_read st' i sc = entry_read st i sc.
Proof.
  intros Hnd. unfold commit_scope, bind, read_setting.
  destruct (settings st !! i) as [s|] eqn:Hi; [|done].
  destruct (val s) as [m|] eqn:Hval; [|done].
  destruct (is_defined (val_read m sc')); [|by intros [= <-]].
  intros Hset.
  pose proof (getSetting_distinct st i s Hnd Hi) as Hget.
  destruct (setValue_Ret_inv host_call _ _ _ _ _ _ _ Hset Hget) as (Hscope & _).
  pose proof (setValue_core host_call (name s) sc' (val_read m sc') st i s m Hscope Hget Hval)
    as Hcore.
  rewrite Hset in Hcore. unfold core in Hcore. simpl in Hcore. injection Hcore as Hs _ _.
  unfold entry_read. rewrite Hs, Hi, Hval.
  rewrite list_lookup_insert_eq by (by eapply lookup_lt_Some). simpl.
  unfold val_read. destruct (decide (sc' = sc)) as [->|Hne].
  - by rewrite lookup_insert_eq.
  - by rewrite lookup_insert_ne.
Qed.

Lemma commit_loop_entry i sc scs : ∀ j0 st st',
  distinct_names st →
  for_each j0 scs (λ _ scope, commit_scope host_call i scope) st = Ret tt st' →
  entry_read st' i sc = entry_read st i sc.
Proof.
  induction scs as [|sc' scs IH]; intros j0 st st' Hnd Hloop.
  - by injection Hloop as <-.
  - cbn [for_each] in Hloop. apply bind_Ret in Hloop as ([] & st1 & Hhead & Hrest).
    pose proof (commit_scope_touches i sc' st Hnd) as Htouch.
    rewrite Hhead in Htouch. simpl in Htouch.
    rewrite (IH _ _ _ (touches_distinct i _ _ Hnd Htouch) Hrest).
    by apply (commit_scope_entry i sc').
Qed.

(** What turn [i] of the first loop leaves in entry [i]. *)
Lemma load_setting_entry i st st' s cs sc :
  distinct_names st →
  settings st !! i = Some s →
  controls s = Some cs →
  (∀ c, c ∈ cs → c_type c = Some "custom" → prop_str (c_scope c) ≠ sc) →
  load_setting urlVars host_call i st = Ret tt st' →
  entry_read st' i sc = seeded_get urlVars cs sc (seed_start s sc).
Proof.
  intros Hnd Hi Hcs Hcustom Hload.
  rewrite (load_setting_unfold urlVars host_call i s st Hi) in Hload.
  unfold load_rest in Hload. rewrite Hcs in Hload.
  apply bind_Ret in Hload as ([] & stb & Hseed & Hcommit).
  assert (touches i st (fresh_val i s st)) as Hfresh by (by eapply touches_insert).
  assert (touches i (fresh_val i s st) stb) as Hseeded.
  { pose proof (along_for_each (touches i) (touches_refl i) (touches_trans i) always
                  (λ _ _ _ _, I) (λ _ c, seed_control urlVars host_call i c) cs 0) as Halong.
    specialize (Halong (λ j c _ st0 _, seed_control_touches i c st0) (fresh_val i s st) I).
    by rewrite Hseed in Halong. }
  assert (distinct_names stb) as Hndb.
  { eapply touches_distinct; [|done]. by eapply touches_distinct. }
  rewrite (commit_loop_entry i sc scopes 0 stb st' Hndb Hcommit).
  rewrite (seed_loop_entry i sc cs 0 _ stb Hseed Hcustom). f_equal.
  unfold entry_read, fresh_val, seed_start. simpl.
  rewrite list_lookup_insert_eq by (by eapply lookup_lt_Some). simpl.
  unfold val_read. case_bool_decide as Hsc.
  - subst. by rewrite lookup_singleton_eq.
  - by rewrite lookup_singleton_ne.
Qed.

Lemma seeded_get_untouched cs sc acc :
  (∀ c, c ∈ cs → c_type c = Some "get" → prop_str (c_scope c) ≠ sc) →
  seeded_get urlVars cs sc acc = acc.
Proof.
  revert acc. induction cs as [|c cs IH]; intros acc Hget; cbn [seeded_get]; [done|].
  rewrite IH by (intros ? ?; apply Hget; by right).
  case_bool_decide as Htype; [|done]. simpl.
  rewrite bool_decide_eq_false_2; [done|]. apply Hget; [by left|done].
Qed.

(** X15. On a registry with distinct names, when [loadSettings] returns,
    the entry of a setting for a scope that none of its computed bindings
    targets is what its "get" bindings make of it, in the order of the
    controls: it starts as the default value for "local" and as undefined
    for the other scopes, and each "get" binding for the scope whose
    parameter is truthy after coercion replaces it.  So a scope that no
    "get" or computed binding targets keeps that start: widgets seed
    nothing. *)
Theorem loadSettings_seeds_values st st' i s cs sc :
  distinct_names st →
  loadSettings urlVars host_call st = Ret tt st' →
  settings st !! i = Some s →
  controls s = Some cs →
  (∀ c, c ∈ cs → c_type c = Some "custom" → prop_str (c_scope c) ≠ sc) →
  entry_read st' i sc = seeded_get urlVars cs sc (seed_start s sc) ∧
  ((∀ c, c ∈ cs → c_type c = Some "get" → prop_str (c_scope c) ≠ sc) →
   entry_read st' i sc = seed_start s sc).
Proof.
  intros Hnd Hload Hi Hcs Hcustom.
  assert (entry_read st' i sc = seeded_get urlVars cs sc (seed_start s sc)) as Hentry.
  { destruct (loadSettings_Ret_inv urlVars host_call st st' Hload)
      as (_ & st2 & st3 & Hloop & Hcore & Hsave).
    destruct (first_loop_turn _ 0 st st2 i Hnd Hloop) as (st1 & st1' & Hnd1 & Hsame & Hturn & Hleft).
    { apply lookup_lt_Some in Hi. lia. }
    rewrite Hi in Hsame.
    rewrite <- (load_setting_entry i st1 st1' s cs sc Hnd1 Hsame Hcs Hcustom Hturn).
    apply entry_read_lookup. rewrite <- Hleft.
    apply saveToCookie_Ret in Hsave as (out & _ & ->). simpl.
    unfold core in Hcore. by injection Hcore as -> _ _. }
  split; [done|]. intros Hget. by rewrite Hentry, seeded_get_untouched.
Qed.

End LoaderValues.

(** "rtl" of the table of the source with "?userName=Bob&rtl=true": "get"
    holds the boolean, "global" nothing, "local" the default. *)
Lemma loadSettings_seeds_values_witness :
  entry_read loaded_page 4 "get" = VBool true ∧
  entry_read loaded_page 4 "global" = VUndefined ∧
  entry_read loaded_page 4 "local" = VBool false.
Proof.
  assert (distinct_names (initial_state settings_table page_dom)) as Hnd by by_evaluation.
  assert (∀ sc c, c ∈ [get_control "get" "rtl"] → c_type c = Some "custom" →
                  prop_str (c_scope c) ≠ sc) as Hcustom.
  { intros sc c Hc Htype. apply list_elem_of_singleton in Hc as ->. discriminate. }
  split; [|split].
  - destruct (loadSettings_seeds_values bob_query (table_call bob_query)
                (initial_state settings_table page_dom) loaded_page 4
                (entry "rtl" (VBool false) [get_control "get" "rtl"])
                [get_control "get" "rtl"] "get" Hnd loaded_page_returns eq_refl eq_refl
                (Hcustom "get")) as [Hentry _].
    rewrite Hentry. vm_compute. reflexivity.
  - destruct (loadSettings_seeds_values bob_query (table_call bob_query)
                (initial_state settings_table page_dom) loaded_page 4
                (entry "rtl" (VBool false) [get_control "get" "rtl"])
                [get_control "get" "rtl"] "global" Hnd loaded_page_returns eq_refl eq_refl
                (Hcustom "global")) as [Hentry _].
    rewrite Hentry. vm_compute. reflexivity.
  - destruct (loadSettings_seeds_values bob_query (table_call bob_query)
                (initial_state settings_table page_dom) loaded_page 4
                (entry "rtl" (VBool false) [get_control "get" "rtl"])
                [get_control "get" "rtl"] "local" Hnd loaded_page_returns eq_refl eq_refl
                (Hcustom "local")) as [Hentry _].
    rewrite Hentry. vm_compute. reflexivity.
Defined.

(** ** The query string *)

Section QueryString.

Implicit Types (c : Ascii.ascii) (s a b : string).
















End QueryString.



(** ** Names that are not distinct *)

(** X18. The validator does not compare names: a well-formed registry to
    which a copy of one of its settings is added is accepted as well,
    although [getSetting] never returns the copy; it still returns an
    entry that was there before. *)
Theorem duplicate_name_accepted st s :
  registry_ok st →
  s ∈ settings st →
  checkSettingsArray (with_copy st s) = Ret tt (with_copy st s) ∧
  ∃ j s', (j < length (settings st))%nat ∧
          getSetting (with_copy st s) (name s) = Some (j, s') ∧
          settings st !! j = Some s'.
Proof.
  intros [Hign Hss] Hs. split.
  - apply checkSettingsArray_registry_ok. split; [done|]. simpl.
    apply Forall_app. split; [done|]. apply Forall_singleton.
    by eapply Forall_forall in Hss.
  - apply list_elem_of_lookup in Hs as [i Hi].
    assert (settings (with_copy st s) !! i = Some s) as Hi'.
    { simpl. by apply lookup_app_l_Some. }
    destruct (getSetting_first _ i s Hi') as (j & s' & Hle & Hfind & _).
    pose proof (lookup_lt_Some _ _ _ Hi) as Hlt.
    exists j, s'. split_and!; [lia|done|].
    apply list_find_Some in Hfind as (Hj & _). simpl in Hj.
    rewrite lookup_app_l in Hj by lia. done.
Qed.

(** The table of the source with "rtl" entered twice. *)
Lemma duplicate_name_accepted_witness :
  checkSettingsArray
    (with_copy (initial_state settings_table page_dom)
       (entry "rtl" (VBool false) [get_control "get" "rtl"]))
  = Ret tt (with_copy (initial_state settings_table page_dom)
              (entry "rtl" (VBool false) [get_control "get" "rtl"])).
Proof.
  apply (duplicate_name_accepted (initial_state settings_table page_dom)
           (entry "rtl" (VBool false) [get_control "get" "rtl"])).
  - apply collected_errors_nil. vm_compute. reflexivity.
  - unfold settings_table. simpl. do 4 right. left.
Defined.
